(** * PyRes: literals, the clause queue and the inference wrappers

    A shallow embedding of three modules of the prover:
    - [minheap.py]    the binary min-heap that schedules pending clauses,
    - [literals.py]   signed atoms, their normalisation, parsing and printing,
    - [rescontrol.py] the wrappers that enumerate resolvents and factors.

    Python exceptions are results of type [result]; methods that mutate
    [self.tree] are functions of the tree that return the outcome together
    with the tree as the call leaves it (an exception does not undo the
    mutations made before it).  Recursive methods and [while] loops take a
    fuel argument; the callers pass enough of it. *)

From Stdlib Require Import ZArith QArith Qround List Bool Lia String Ascii FinFun Sorted Permutation.
Import ListNotations.

Local Open Scope Z_scope.
Local Set Warnings "-register-all".

(** ** Python outcomes *)

(** The exceptions the modelled code can raise.  [OutOfFuel] is not a Python
  exception: it marks a recursion that was given too little fuel. *)
Inductive exn : Type :=
| IndexError
| AssertionError
| SyntaxError
| OutOfFuel.

Inductive result (A : Type) : Type :=
| Ok (a : A)
| Raise (e : exn).

Arguments Ok {A} a.
Arguments Raise {A} e.

(** ** Stateful code that can raise

  A computation over a mutable object of type [S] (the heap's array, the
  lexer): it returns its outcome and the object as it leaves it. *)

Definition SE (S A : Type) : Type := S -> result A * S.

Definition ret {S A} (a : A) : SE S A := fun s => (Ok a, s).

Definition raise {S A} (e : exn) : SE S A := fun s => (Raise e, s).

Definition lift {S A} (r : result A) : SE S A := fun s => (r, s).

Definition bind {S A B} (m : SE S A) (f : A -> SE S B) : SE S B :=
  fun s => match m s with
           | (Ok a, s') => f a s'
           | (Raise e, s') => (Raise e, s')
           end.

Declare Scope se_scope.
Delimit Scope se_scope with se.
Notation "x <- m ;; k" := (bind m (fun x => k))
  (at level 61, m at next level, right associativity) : se_scope.
Notation "m ;; k" := (bind m (fun _ => k))
  (at level 61, right associativity) : se_scope.
Local Open Scope se_scope.

(** The same for code that only raises. *)
Definition bindr {A B} (r : result A) (f : A -> result B) : result B :=
  match r with
  | Ok a => f a
  | Raise e => Raise e
  end.

(** ** Python lists *)

Module PyList.

(** [l[i]] for an integer [i]: a negative index counts from the end, an
    index outside [-len, len) raises [IndexError]. *)
Definition norm_index (len i : Z) : option nat :=
  if i <? 0
  then if len + i <? 0 then None else Some (Z.to_nat (len + i))
  else if i <? len then Some (Z.to_nat i) else None.

Definition getitem {A} (l : list A) (i : Z) : result A :=
  match norm_index (Z.of_nat (List.length l)) i with
  | Some k => match nth_error l k with
              | Some x => Ok x
              | None => Raise IndexError
              end
  | None => Raise IndexError
  end.

Fixpoint update {A} (l : list A) (k : nat) (x : A) : list A :=
  match l, k with
  | [], _ => []
  | _ :: l', O => x :: l'
  | y :: l', S k' => y :: update l' k' x
  end.

(** [l[i] = x] *)
Definition setitem {A} (l : list A) (i : Z) (x : A) : result (list A) :=
  match norm_index (Z.of_nat (List.length l)) i with
  | Some k => Ok (update l k x)
  | None => Raise IndexError
  end.

(** [l.pop()]: removes and returns the last element. *)
Definition pop {A} (l : list A) : result (A * list A) :=
  match rev l with
  | [] => Raise IndexError
  | x :: r => Ok (x, rev r)
  end.

End PyList.

(** ** minheap.py *)

Module MinHeap.

Section Heap.

(** The payload is opaque to the heap. *)
Variables (Clause Count : Type).

(** A node is the Python list [[evaluation, clause, count]]; evaluations
    are integers. *)
Record node : Type := Node
  { evaluation : Z;      (* node[0] *)
    clause : Clause;     (* node[1] *)
    count : Count }.     (* node[2] *)

Definition tree : Type := list node.

(** A method body reads and writes [self.tree]. *)
Definition M (A : Type) : Type := SE tree A.

(** [self.tree] *)
Definition get_tree : M tree := fun t => (Ok t, t).

(** [len(self.tree)] *)
Definition tree_len : M Z := fun t => (Ok (Z.of_nat (List.length t)), t).

(** [self.tree[i]] *)
Definition tree_get (i : Z) : M node := fun t => (PyList.getitem t i, t).

(** [self.tree[i] = x] *)
Definition tree_set (i : Z) (x : node) : M unit :=
  fun t => match PyList.setitem t i x with
           | Ok t' => (Ok tt, t')
           | Raise e => (Raise e, t)
           end.

(** [self.tree.pop()] *)
Definition tree_pop : M node :=
  fun t => match PyList.pop t with
           | Ok (x, t') => (Ok x, t')
           | Raise e => (Raise e, t)
           end.

(** [self.tree.append(x)] *)
Definition tree_append (x : node) : M unit := fun t => (Ok tt, t ++ [x]).

(** [__init__] *)
Definition init : tree := [].

(** [switch] *)
Definition switch (node1 node2 : Z) : M unit :=
  temp <- tree_get node1 ;;
  other <- tree_get node2 ;;
  tree_set node1 other ;;
  tree_set node2 temp.

(** [math.ceil((node / 2) - 1)].  [/] is Python 3's true division (the
    result of [math.ceil] is used as a list index, which only an integer
    can be); halving and subtracting one are exact on floats for every
    integer below 2^53, so the value is the ceiling of the rational
    number. *)
Definition parent (node : Z) : Z :=
  Qceiling (inject_Z node / inject_Z 2 - inject_Z 1).

(** [bubbleup]; the recursion is on [fuel]. *)
Fixpoint bubbleup (fuel : nat) (node : Z) : M unit :=
  match fuel with
  | O => raise OutOfFuel
  | S fuel' =>
      if node =? 0 then ret tt
      else
        let parent := parent node in
        p <- tree_get parent ;;
        n <- tree_get node ;;
        if evaluation p <=? evaluation n then ret tt
        else switch node parent ;; bubbleup fuel' parent
  end.

(** [insert]: the rebinding [clause = [evaluation, clause, count]] builds
    the node. *)
Definition insert (clause : Clause) (count : Count) (evaluation : Z) : M unit :=
  let clause := Node evaluation clause count in
  tree_append clause ;;
  len <- tree_len ;;
  bubbleup (Z.to_nat len) (len - 1).

(** [bubbledown]; the recursion is on [fuel]. *)
Fixpoint bubbledown (fuel : nat) (node : Z) : M unit :=
  match fuel with
  | O => raise OutOfFuel
  | S fuel' =>
      let leftchild := 2 * node + 1 in
      len <- tree_len ;;
      if leftchild >? len - 1 then ret tt
      else
        let rightchild := leftchild + 1 in
        len <- tree_len ;;
        if rightchild >? len - 1 then
          l <- tree_get leftchild ;;
          n <- tree_get node ;;
          (if evaluation l <? evaluation n then
             temp <- tree_get leftchild ;;
             n <- tree_get node ;;
             tree_set leftchild n ;;
             tree_set node temp
           else ret tt) ;;
          ret tt
        else
          l <- tree_get leftchild ;;
          n <- tree_get node ;;
          lower <- (if evaluation l <? evaluation n then ret true
                    else
                      r <- tree_get rightchild ;;
                      n <- tree_get node ;;
                      ret (evaluation r <? evaluation n)) ;;
          if (lower : bool) then
            l <- tree_get leftchild ;;
            r <- tree_get rightchild ;;
            if evaluation l <=? evaluation r then
              switch node leftchild ;; bubbledown fuel' leftchild
            else
              switch node rightchild ;; bubbledown fuel' rightchild
          else ret tt
  end.

(** The tuple [getBest] returns: [(clause, count, exhausted)], where
    [None] is Python's [None]. *)
Definition best : Type := option Clause * option Count * bool.

(** [getBest].  In [self.tree[0] = self.tree.pop()] the right-hand side is
    evaluated first, then the store into position 0 of what is left. *)
Definition getBest : M best :=
  t <- get_tree ;;
  match t with
  | [] => ret (None, None, true)
  | _ :: _ =>
      r <- tree_get 0 ;;
      let clause := clause r in
      r <- tree_get 0 ;;
      let count := count r in
      last <- tree_pop ;;
      tree_set 0 last ;;
      len <- tree_len ;;
      bubbledown (S (Z.to_nat len)) 0 ;;
      ret (Some clause, Some count, false)
  end.

(** The scenario of the heap-ordering property, as a caller writes it: a
    sequence of [insert] calls, and [getBest] repeated until it signals
    exhaustion.  [drain] returns the tuples extracted, each with the
    evaluation of the node it was taken from (the root when [getBest] was
    called), how the loop ended ([Ok] for the exhaustion signal) and the
    array it leaves. *)
Fixpoint insert_all (items : list (Clause * Count * Z)) : M unit :=
  match items with
  | [] => ret tt
  | (c, k, e) :: rest => insert c k e ;; insert_all rest
  end.

Definition root_evaluation (t : tree) : Z :=
  match t with
  | [] => 0
  | x :: _ => evaluation x
  end.

Fixpoint drain (fuel : nat) (t : tree) : list (Z * best) * result unit * tree :=
  match fuel with
  | O => ([], Raise OutOfFuel, t)
  | S fuel' =>
      match getBest t with
      | (Ok (_, _, true), t') => ([], Ok tt, t')
      | (Ok r, t') =>
          let '(rs, how, t'') := drain fuel' t' in
          ((root_evaluation t, r) :: rs, how, t'')
      | (Raise e, t') => ([], Raise e, t')
      end
  end.

(** The evaluation at a position, and the heap order: no node is smaller
    than its parent. *)
Definition ev (t : tree) (i : Z) : Z :=
  match PyList.getitem t i with
  | Ok x => evaluation x
  | Raise _ => 0
  end.

Definition heap_ordered (t : tree) : Prop :=
  forall i, 0 < i < Z.of_nat (List.length t) -> ev t ((i - 1) / 2) <= ev t i.

(** The order holds except between position [k] and its parent, whose
    children are not below their grandparent ([bubbleup]), and except
    between [k] and its children, which are not below their grandparent
    ([bubbledown]). *)
Definition up_inv (t : tree) (k : Z) : Prop :=
  (forall i, 0 < i < Z.of_nat (List.length t) -> i <> k -> ev t ((i - 1) / 2) <= ev t i) /\
  (forall i, 0 < i < Z.of_nat (List.length t) -> 0 < k -> (i - 1) / 2 = k ->
             ev t ((k - 1) / 2) <= ev t i).

Definition down_inv (t : tree) (k : Z) : Prop :=
  (forall i, 0 < i < Z.of_nat (List.length t) -> (i - 1) / 2 <> k ->
             ev t ((i - 1) / 2) <= ev t i) /\
  (forall i, 0 < i < Z.of_nat (List.length t) -> 0 < k -> (i - 1) / 2 = k ->
             ev t ((k - 1) / 2) <= ev t i).

End Heap.

Arguments Node {Clause Count}.
Arguments insert_all {Clause Count}.
Arguments drain {Clause Count}.
Arguments root_evaluation {Clause Count}.
Arguments ev {Clause Count}.
Arguments heap_ordered {Clause Count}.
Arguments up_inv {Clause Count}.
Arguments down_inv {Clause Count}.
Arguments evaluation {Clause Count}.
Arguments clause {Clause Count}.
Arguments count {Clause Count}.
Arguments get_tree {Clause Count}.
Arguments tree_len {Clause Count}.
Arguments tree_get {Clause Count}.
Arguments tree_set {Clause Count}.
Arguments tree_pop {Clause Count}.
Arguments tree_append {Clause Count}.
Arguments init {Clause Count}.
Arguments switch {Clause Count}.
Arguments bubbleup {Clause Count}.
Arguments insert {Clause Count}.
Arguments bubbledown {Clause Count}.
Arguments getBest {Clause Count}.

End MinHeap.

(** ** The term collaborator (terms.py) *)

Module Terms.

Local Open Scope string_scope.

(** Modelled from the spec: terms.py is not among the sources.  A term is
    the recursive first-order structure "variable | function-application":
    in Python a variable is its name and an application is the list
    [[f, t1, ..., tn]], the shape [parseAtom] builds with
    [list([op, lhs, rhs])]. *)
Inductive term : Type :=
| Var (name : string)
| Fun (f : string) (args : list term).

(** Modelled from the spec: [functor(term)] of the Term collaborator, the
    head of an application; a variable has none and is rejected. *)
Definition termFunc (t : term) : result string :=
  match t with
  | Var _ => Raise AssertionError
  | Fun f _ => Ok f
  end.

(** Modelled from the spec: [arguments(term)] of the Term collaborator,
    the arguments of an application in their order. *)
Definition termArgs (t : term) : result (list term) :=
  match t with
  | Var _ => Raise AssertionError
  | Fun _ args => Ok args
  end.

(** Modelled from the spec: [structurallyEqual(t1, t2)], "recursive,
    order-sensitive on arguments, variable-name-sensitive". *)
Fixpoint termEqual (t1 t2 : term) : bool :=
  match t1, t2 with
  | Var x, Var y => String.eqb x y
  | Fun f args1, Fun g args2 =>
      String.eqb f g &&
      (fix termListEqual (l1 l2 : list term) : bool :=
         match l1, l2 with
         | [], [] => true
         | s :: l1', t :: l2' => termEqual s t && termListEqual l1' l2'
         | _, _ => false
         end) args1 args2
  | _, _ => false
  end.

(** Modelled from the spec: the printed form of a term in the concrete
    surface syntax, as the unit tests of literals.py write it: [X], [a],
    [f(X,a)]. *)
Fixpoint term2String (t : term) : string :=
  match t with
  | Var x => x
  | Fun f [] => f
  | Fun f args => f ++ "(" ++ String.concat "," (map term2String args) ++ ")"
  end.

End Terms.

(** ** The token stream (lexer.py) *)

Module Lexer.

Local Open Scope string_scope.

(** Modelled from the spec: lexer.py is not among the sources.  The kinds
    of token that the literal syntax needs: identifiers, the defined words
    that start with [$], parentheses and comma, [=], [!=], [~], [|], the
    end of the input, and a kind for any other character. *)
Inductive TokenKind : Type :=
| IdentUpper | IdentLower | DefFunctor
| OpenPar | ClosePar | Comma
| EqualSign | NotEqualSign | Negation | Or
| EOFToken | NoToken.

Definition kind_eqb (k1 k2 : TokenKind) : bool :=
  match k1, k2 with
  | IdentUpper, IdentUpper | IdentLower, IdentLower
  | DefFunctor, DefFunctor | OpenPar, OpenPar | ClosePar, ClosePar
  | Comma, Comma | EqualSign, EqualSign | NotEqualSign, NotEqualSign
  | Negation, Negation | Or, Or | EOFToken, EOFToken
  | NoToken, NoToken => true
  | _, _ => false
  end.

Record Token : Type := Tok { type : TokenKind; literal : string }.

(** Character classes. *)
Definition between (lo hi : nat) (c : ascii) : bool :=
  (lo <=? nat_of_ascii c)%nat && (nat_of_ascii c <=? hi)%nat.
Definition isUpper (c : ascii) : bool := between 65 90 c.
Definition isLower (c : ascii) : bool := between 97 122 c.
Definition isDigit (c : ascii) : bool := between 48 57 c.
Definition isIdentChar (c : ascii) : bool :=
  isUpper c || isLower c || isDigit c || Ascii.eqb c "_".
Definition isSpace (c : ascii) : bool :=
  Ascii.eqb c " " || Ascii.eqb c "009" || Ascii.eqb c "010" || Ascii.eqb c "013".

(** The word being read, if any, closes into a token. *)
Definition flush (cur : option (TokenKind * string)) : list Token :=
  match cur with
  | Some (k, w) => [Tok k w]
  | None => []
  end.

(** Modelled from the spec: the tokens of a source text.  A word is a
    maximal run of identifier characters (after a leading [$] for a defined
    word); white space separates tokens and is dropped. *)
Fixpoint scan (cur : option (TokenKind * string)) (s : string) : list Token :=
  match s with
  | EmptyString => flush cur
  | String c s' =>
      if isIdentChar c then
        match cur with
        | Some (k, w) => scan (Some (k, w ++ String c "")) s'
        | None =>
            if isUpper c then scan (Some (IdentUpper, String c "")) s'
            else if isLower c then scan (Some (IdentLower, String c "")) s'
            else Tok NoToken (String c "") :: scan None s'
        end
      else
        flush cur ++
        (if isSpace c then scan None s'
         else if Ascii.eqb c "$" then scan (Some (DefFunctor, "$")) s'
         else if Ascii.eqb c "(" then Tok OpenPar "(" :: scan None s'
         else if Ascii.eqb c ")" then Tok ClosePar ")" :: scan None s'
         else if Ascii.eqb c "," then Tok Comma "," :: scan None s'
         else if Ascii.eqb c "=" then Tok EqualSign "=" :: scan None s'
         else if Ascii.eqb c "~" then Tok Negation "~" :: scan None s'
         else if Ascii.eqb c "|" then Tok Or "|" :: scan None s'
         else if Ascii.eqb c "!" then
           match s' with
           | String "=" s'' => Tok NotEqualSign "!=" :: scan None s''
           | _ => Tok NoToken "!" :: scan None s'
           end
         else Tok NoToken (String c "") :: scan None s')%list
  end.

(** The lexer object: the tokens still to be read. *)
Definition lexer : Type := list Token.

(** [Lexer(source)] *)
Definition Lexer (source : string) : lexer := scan None source.

(** Modelled from the spec: "look-ahead of the current token's literal
    text, a predicate test against one or more expected token kinds, and
    consumption of the current token". *)
Definition Look : SE lexer Token :=
  fun lex => match lex with
             | [] => (Ok (Tok EOFToken ""), lex)
             | tok :: _ => (Ok tok, lex)
             end.

Definition LookLit : SE lexer string :=
  tok <- Look ;; ret (literal tok).

Definition TestTok (tokens : list TokenKind) : SE lexer bool :=
  tok <- Look ;; ret (existsb (kind_eqb (type tok)) tokens).

Definition Next : SE lexer Token :=
  fun lex => match lex with
             | [] => (Ok (Tok EOFToken ""), lex)
             | tok :: rest => (Ok tok, rest)
             end.

(** Modelled from the spec: "parsing fails with a syntax error ... when an
    expected token/shape is absent". *)
Definition CheckTok (tokens : list TokenKind) : SE lexer unit :=
  ok <- TestTok tokens ;;
  if (ok : bool) then ret tt else raise SyntaxError.

Definition AcceptTok (tokens : list TokenKind) : SE lexer Token :=
  CheckTok tokens ;; Next.

End Lexer.

(** ** literals.py *)

Module Literals.

Import Terms Lexer.
Local Open Scope string_scope.

(** Modelled from the spec: [parseTerm(stream)] of the Term collaborator
    for the surface syntax above: an upper-case identifier is a variable;
    a lower-case identifier or defined word is a function symbol, followed
    by a parenthesised, comma-separated list of terms if it has
    arguments.  The recursion is on [fuel]. *)
Fixpoint parseTerm_fuel (fuel : nat) : SE lexer term :=
  match fuel with
  | O => raise OutOfFuel
  | S fuel' =>
      isvar <- TestTok [IdentUpper] ;;
      if (isvar : bool) then
        tok <- Next ;; ret (Var (literal tok))
      else
        CheckTok [IdentLower; DefFunctor] ;;
        tok <- Next ;;
        par <- TestTok [OpenPar] ;;
        if (par : bool) then
          AcceptTok [OpenPar] ;;
          args <- parseTermList_fuel fuel' ;;
          AcceptTok [ClosePar] ;;
          ret (Fun (literal tok) args)
        else ret (Fun (literal tok) [])
  end
with parseTermList_fuel (fuel : nat) : SE lexer (list term) :=
  match fuel with
  | O => raise OutOfFuel
  | S fuel' =>
      t <- parseTerm_fuel fuel' ;;
      more <- TestTok [Comma] ;;
      if (more : bool) then
        AcceptTok [Comma] ;;
        ts <- parseTermList_fuel fuel' ;;
        ret (t :: ts)
      else ret [t]
  end.

(** Every call reads a token before it recurses, so twice the number of
    tokens left is fuel enough. *)
Definition parseTerm : SE lexer term :=
  fun lex => parseTerm_fuel (2 * List.length lex + 1) lex.

(** [parseAtom] *)
Definition parseAtom : SE lexer term :=
  atom <- parseTerm ;;
  eq <- TestTok [EqualSign; NotEqualSign] ;;
  if (eq : bool) then
    tok <- Next ;;
    let op := literal tok in
    let lhs := atom in
    rhs <- parseTerm ;;
    ret (Fun op [lhs; rhs])
  else ret atom.

(** A literal object. *)
Record Literal : Type := mkLiteral
  { negative : bool;
    atom : term }.

(** [Literal.__init__]: [list(["="])] extended by the arguments is the
    application of [=] to them. *)
Definition Literal_init (atom : term) (negative : bool) : result Literal :=
  bindr (termFunc atom) (fun f =>
  if String.eqb f "!=" then
    bindr (termArgs atom) (fun args =>
    Ok (mkLiteral (negb negative) (Fun "=" args)))
  else
    Ok (mkLiteral negative atom)).

(** [isEquational] *)
Definition isEquational (self : Literal) : result bool :=
  bindr (termFunc (atom self)) (fun f => Ok (String.eqb f "=")).

(** [isNegative] *)
Definition isNegative (self : Literal) : bool := negative self.

(** [isPositive] *)
Definition isPositive (self : Literal) : bool := negb (negative self).

(** [isEqual] *)
Definition isEqual (self other : Literal) : bool :=
  Bool.eqb (isNegative self) (isNegative other) &&
  termEqual (atom self) (atom other).

(** [isOpposite] *)
Definition isOpposite (self other : Literal) : bool :=
  negb (Bool.eqb (isNegative self) (isNegative other)) &&
  termEqual (atom self) (atom other).

(** [instantiate]; the substitution is any function on terms. *)
Definition instantiate (self : Literal) (subst : term -> term) : result Literal :=
  Literal_init (subst (atom self)) (negative self).

(** The normalisation invariant: the stored atom is not headed by [!=]. *)
Definition normalised (l : Literal) : Prop := termFunc (atom l) <> Ok "!=".

(** [Literal.__repr__] *)
Definition repr (self : Literal) : result string :=
  bindr (isEquational self) (fun eq =>
  if (eq : bool) then
    let op := if isNegative self then "!=" else "=" in
    bindr (termArgs (atom self)) (fun args0 =>
    bindr (PyList.getitem args0 0) (fun lhs =>
    bindr (termArgs (atom self)) (fun args1 =>
    bindr (PyList.getitem args1 1) (fun rhs =>
    Ok (term2String lhs ++ op ++ term2String rhs)))))
  else if isNegative self then Ok ("~" ++ term2String (atom self))
  else Ok (term2String (atom self))).

(** [parseLiteral] *)
Definition parseLiteral : SE lexer Literal :=
  neg <- TestTok [Negation] ;;
  negative <- (if (neg : bool) then Next ;; ret true else ret false) ;;
  atom <- parseAtom ;;
  lift (Literal_init atom negative).

(** One item of a literal list: [$false] is read and dropped, anything
    else is parsed as a literal and appended to [res]. *)
Definition parseLiteralItem (res : list Literal) : SE lexer (list Literal) :=
  look <- LookLit ;;
  if String.eqb look "$false" then Next ;; ret res
  else lit <- parseLiteral ;; ret (res ++ [lit])%list.

(** The [while lexer.TestTok(Token.Or)] loop of [parseLiteralList]; the
    recursion is on [fuel]. *)
Fixpoint parseLiteralList_loop (fuel : nat) (res : list Literal)
  : SE lexer (list Literal) :=
  match fuel with
  | O => raise OutOfFuel
  | S fuel' =>
      more <- TestTok [Or] ;;
      if (more : bool) then
        Next ;;
        res' <- parseLiteralItem res ;;
        parseLiteralList_loop fuel' res'
      else ret res
  end.

(** [parseLiteralList]; every turn of the loop reads a [|], so the number
    of tokens left bounds the turns. *)
Definition parseLiteralList : SE lexer (list Literal) :=
  res <- parseLiteralItem [] ;;
  fun lex => parseLiteralList_loop (S (List.length lex)) res lex.

(** [map(repr, list)] *)
Fixpoint map_repr (lits : list Literal) : result (list string) :=
  match lits with
  | [] => Ok []
  | l :: rest =>
      bindr (repr l) (fun s =>
      bindr (map_repr rest) (fun ss => Ok (s :: ss)))
  end.

(** [literalList2String] *)
Definition literalList2String (lits : list Literal) : result string :=
  match lits with
  | [] => Ok "$false"
  | _ :: _ => bindr (map_repr lits) (fun ss => Ok (String.concat "|" ss))
  end.

End Literals.

(** ** rescontrol.py *)

Module ResControl.

Local Open Scope nat_scope.

(** [xrange(a, b)] *)
Definition xrange (a b : nat) : list nat := seq a (b - a).

Section Inference.

(** The collaborators, which the source imports: clauses, clause sets and
    the two inference rules.  A rule returns a clause or Python's [None]. *)
Variables (Clause ClauseSet Lit : Type).

(** [len(clause)] and [clause.getLiteral(i)] *)
Variable len : Clause -> nat.
Variable getLiteral : Clause -> nat -> Lit.

(** The truth value of a clause object, as [if fact:] tests it. *)
Variable truth : Clause -> bool.

(** [clauseset.getResolutionLiterals(lit)] *)
Variable getResolutionLiterals : ClauseSet -> Lit -> list (Clause * nat).

(** [resolution(clause, lit, cl2, lit2)] and [factor(clause, i, j)] *)
Variable resolution : Clause -> nat -> Clause -> nat -> option Clause.
Variable factor : Clause -> nat -> nat -> option Clause.

(** A run returns the calls it made to the inference rule, in order,
    beside the list [res]. *)
Definition run (Call : Type) : Type := list Call * list Clause.

(** The body of the inner loop of [computeAllResolvents]:
    [resolvent != None] keeps whatever is not [None]. *)
Definition resolvents_step (clause : Clause) (lit : nat)
    (st : run (nat * Clause * nat)) (partner : Clause * nat)
  : run (nat * Clause * nat) :=
  let (cl2, lit2) := partner in
  let resolvent := resolution clause lit cl2 lit2 in
  let calls := fst st ++ [(lit, cl2, lit2)] in
  match resolvent with
  | Some r => (calls, snd st ++ [r])
  | None => (calls, snd st)
  end.

Definition computeAllResolvents_run (clause : Clause) (clauseset : ClauseSet)
  : run (nat * Clause * nat) :=
  fold_left
    (fun st lit =>
       let partners := getResolutionLiterals clauseset (getLiteral clause lit) in
       fold_left (resolvents_step clause lit) partners st)
    (xrange 0 (len clause)) ([], []).

(** [computeAllResolvents] *)
Definition computeAllResolvents (clause : Clause) (clauseset : ClauseSet)
  : list Clause :=
  snd (computeAllResolvents_run clause clauseset).

(** The body of the inner loop of [computeAllFactors]: [if fact:] keeps a
    result that is not [None] and whose truth value is true. *)
Definition factors_step (clause : Clause) (i : nat)
    (st : run (nat * nat)) (j : nat) : run (nat * nat) :=
  let fact := factor clause i j in
  let calls := fst st ++ [(i, j)] in
  match fact with
  | Some f => if truth f then (calls, snd st ++ [f]) else (calls, snd st)
  | None => (calls, snd st)
  end.

Definition computeAllFactors_run (clause : Clause) : run (nat * nat) :=
  fold_left
    (fun st i => fold_left (factors_step clause i) (xrange (i + 1) (len clause)) st)
    (xrange 0 (len clause)) ([], []).

(** [computeAllFactors] *)
Definition computeAllFactors (clause : Clause) : list Clause :=
  snd (computeAllFactors_run clause).

(** *** What the enumerations range over *)

(** The candidate pairs of [clause] against [clauseset]: for each literal
    position its resolution partners. *)
Definition candidates (clause : Clause) (clauseset : ClauseSet)
  : list (nat * Clause * nat) :=
  flat_map
    (fun lit => map (fun p : Clause * nat => (lit, fst p, snd p))
                  (getResolutionLiterals clauseset (getLiteral clause lit)))
    (xrange 0 (len clause)).

(** The number [k_i] of partners of literal [i]. *)
Definition partner_count (clause : Clause) (clauseset : ClauseSet) (i : nat) : nat :=
  List.length (getResolutionLiterals clauseset (getLiteral clause i)).

(** Did the resolution rule return [None] on a candidate? *)
Definition no_resolvent (clause : Clause) (c : nat * Clause * nat) : bool :=
  match c with
  | (lit, cl2, lit2) =>
      match resolution clause lit cl2 lit2 with
      | Some _ => false
      | None => true
      end
  end.

(** The position pairs [(i, j)], [i < j < n]. *)
Definition position_pairs (n : nat) : list (nat * nat) :=
  flat_map (fun i => map (pair i) (xrange (i + 1) n)) (xrange 0 n).

(** The factors that the rule produces on a list of pairs and that pass
    [if fact:]. *)
Definition kept_factor (clause : Clause) (p : nat * nat) : list Clause :=
  match factor clause (fst p) (snd p) with
  | Some f => if truth f then [f] else []
  | None => []
  end.

Definition resolvent_of (clause : Clause) (c : nat * Clause * nat) : list Clause :=
  match c with
  | (lit, cl2, lit2) =>
      match resolution clause lit cl2 lit2 with
      | Some r => [r]
      | None => []
      end
  end.

(** What the factoring rule produces on a pair of positions, whatever its
    truth value, and whether it returned [None] there. *)
Definition factor_of (clause : Clause) (p : nat * nat) : list Clause :=
  match factor clause (fst p) (snd p) with
  | Some f => [f]
  | None => []
  end.

Definition no_factor (clause : Clause) (p : nat * nat) : bool :=
  match factor clause (fst p) (snd p) with
  | Some _ => false
  | None => true
  end.

End Inference.

Arguments resolvents_step {Clause}.
Arguments computeAllResolvents_run {Clause ClauseSet Lit}.
Arguments computeAllResolvents {Clause ClauseSet Lit}.
Arguments factors_step {Clause}.
Arguments computeAllFactors_run {Clause}.
Arguments computeAllFactors {Clause}.
Arguments candidates {Clause ClauseSet Lit}.
Arguments partner_count {Clause ClauseSet Lit}.
Arguments no_resolvent {Clause}.
Arguments kept_factor {Clause}.
Arguments resolvent_of {Clause}.
Arguments factor_of {Clause}.
Arguments no_factor {Clause}.

End ResControl.

(** ** Concrete collaborators for the examples *)

Module Samples.

Local Open Scope nat_scope.

(** A clause as the list of its literals (here numbers); the clause object
    has [__len__] and no truth method of its own, so it is false exactly
    when it has no literal. *)
Definition clause : Type := list nat.
Definition clause_len (c : clause) : nat := List.length c.
Definition clause_lit (c : clause) (i : nat) : nat := nth i c 0.
Definition clause_truth (c : clause) : bool := negb (List.length c =? 0).

(** A clause set in which every literal has the unit clause of its
    complement as the only partner, and the rules that go with it:
    resolving against it removes the literal, and a rule that answers
    every pair with the empty clause. *)
Definition unit_partners (_ : unit) (l : nat) : list (clause * nat) := [([l], 0)].
Definition resolve_unit (c : clause) (i : nat) (_ : clause) (_ : nat)
  : option clause := Some (firstn i c ++ skipn (S i) c).
Definition factor_empty (_ : clause) (_ _ : nat) : option clause := Some [].
Definition factor_drop (c : clause) (_ j : nat) : option clause :=
  Some (firstn j c ++ skipn (S j) c).

End Samples.

(** ** Well-formed literals and their tokens *)

Module Syntax.

Import Terms Lexer Literals.
Local Open Scope string_scope.

(** Names that the lexer reads back as one identifier: a lower-case
    (function symbol) or upper-case (variable) letter followed by
    identifier characters. *)
Fixpoint allIdent (w : string) : bool :=
  match w with
  | EmptyString => true
  | String c w' => isIdentChar c && allIdent w'
  end.

Definition isLowerWord (w : string) : bool :=
  match w with
  | EmptyString => false
  | String c w' => isLower c && allIdent w'
  end.

Definition isUpperWord (w : string) : bool :=
  match w with
  | EmptyString => false
  | String c w' => isUpper c && allIdent w'
  end.

Fixpoint wf_term (t : term) : bool :=
  match t with
  | Var x => isUpperWord x
  | Fun f args => isLowerWord f && forallb wf_term args
  end.

(** A well-formed literal: its atom is an equation between two well-formed
    terms or the application of a predicate symbol to well-formed terms. *)
Definition wf_literal (l : Literal) : bool :=
  match atom l with
  | Var _ => false
  | Fun f args =>
      if String.eqb f "=" then
        match args with
        | [lhs; rhs] => wf_term lhs && wf_term rhs
        | _ => false
        end
      else wf_term (atom l)
  end.

(** An entry of a [|]-separated list: a literal, or the word [$false]
    ([None]). *)
Definition item : Type := option Literal.

Definition wf_item (it : item) : bool :=
  match it with
  | Some l => wf_literal l
  | None => true
  end.

Definition item2String (it : item) : result string :=
  match it with
  | Some l => repr l
  | None => Ok "$false"
  end.

Fixpoint map_item2String (its : list item) : result (list string) :=
  match its with
  | [] => Ok []
  | it :: rest =>
      bindr (item2String it) (fun s =>
      bindr (map_item2String rest) (fun ss => Ok (s :: ss)))
  end.

(** The entries written out and joined with [|]. *)
Definition items2String (its : list item) : result string :=
  bindr (map_item2String its) (fun ss => Ok (String.concat "|" ss)).

(** The literals among the entries. *)
Definition literals_of (its : list item) : list Literal :=
  flat_map (fun it : item => match it with Some l => [l] | None => [] end) its.

(** Token lists joined by a separator token. *)
Fixpoint join_tokens (sep : Token) (ls : list (list Token)) : list Token :=
  match ls with
  | [] => []
  | [x] => x
  | x :: ls' => x ++ sep :: join_tokens sep ls'
  end.

(** The tokens of the printed form of a term, a literal and an entry. *)
Fixpoint termTokens (t : term) : list Token :=
  match t with
  | Var x => [Tok IdentUpper x]
  | Fun f [] => [Tok IdentLower f]
  | Fun f args =>
      Tok IdentLower f :: Tok OpenPar "(" ::
      join_tokens (Tok Comma ",") (map termTokens args) ++ [Tok ClosePar ")"]
  end.

Definition literalTokens (l : Literal) : list Token :=
  let plain :=
    ((if negative l then [Tok Negation "~"] else []) ++ termTokens (atom l))%list in
  match atom l with
  | Fun f [lhs; rhs] =>
      if String.eqb f "=" then
        termTokens lhs ++
        (if negative l then Tok NotEqualSign "!=" else Tok EqualSign "=") ::
        termTokens rhs
      else plain
  | _ => plain
  end.

Definition itemTokens (it : item) : list Token :=
  match it with
  | Some l => literalTokens l
  | None => [Tok DefFunctor "$false"]
  end.

(** A text that a word can be written in front of: it is empty or starts
    with a character that no identifier contains. *)
Definition delimited (s : string) : bool :=
  match s with
  | EmptyString => true
  | String c _ => negb (isIdentChar c)
  end.

(** The kind of the token the lexer shows next. *)
Definition next_kind (lex : lexer) : TokenKind :=
  match lex with
  | [] => EOFToken
  | tok :: _ => type tok
  end.

(** [s] is read as the tokens [toks], whatever delimited text follows. *)
Definition scans_to (s : string) (toks : list Token) : Prop :=
  forall rest,
    delimited rest = true -> scan None (s ++ rest) = (toks ++ scan None rest)%list.

(** The tokens of [t] are parsed back to [t] with fuel for twice their
    number, unless an opening parenthesis follows. *)
Definition parses_term (t : term) : Prop :=
  forall fuel rest,
    (2 * List.length (termTokens t) <= fuel)%nat ->
    next_kind rest <> OpenPar ->
    parseTerm_fuel fuel (termTokens t ++ rest)%list = (Ok t, rest).

(** The text of the first token of a term. *)
Definition head_name (t : term) : string :=
  match t with
  | Var x => x
  | Fun f _ => f
  end.

(** The entries that follow the first one, each after its [|]. *)
Definition or_items (its : list item) : lexer :=
  flat_map (fun it => Tok Or "|" :: itemTokens it) its.

End Syntax.

(** ** What a drained queue delivers *)

Module Delivery.

Import MinHeap.

(** The node that [insert(clause, count, evaluation)] builds, and the entry
    that [drain] records when [getBest] takes a node: its evaluation and the
    tuple returned. *)
Definition node_of {Clause Count : Type} (item : Clause * Count * Z) : node Clause Count :=
  let '(c, k, e) := item in Node e c k.

Definition delivered {Clause Count : Type} (n : node Clause Count) : Z * best Clause Count :=
  (evaluation n, (Some (clause n), Some (count n), false)).

End Delivery.

(** ** literals.py: weight and the literal-list tests *)

Module LiteralOps.

Import Terms Literals.

(** Modelled from the spec: [symbolWeight(term, functionWeight,
    variableWeight)] of the Term collaborator, which "sums functionWeight
    once per function-symbol occurrence (the equality pseudo-functor counts
    as one) and variableWeight once per variable occurrence". *)
Fixpoint termWeight (t : term) (fweight vweight : Z) : Z :=
  match t with
  | Var _ => vweight
  | Fun _ args =>
      fold_left (fun res s => res + termWeight s fweight vweight) args fweight
  end.

(** [Literal.weight] *)
Definition weight (self : Literal) (fweight vweight : Z) : Z :=
  termWeight (atom self) fweight vweight.

(** [litInLitList]: the loop returns at the first member that [isEqual]
    the literal. *)
Fixpoint litInLitList (lit : Literal) (litlist : list Literal) : bool :=
  match litlist with
  | [] => false
  | l :: rest => if isEqual l lit then true else litInLitList lit rest
  end.

(** [oppositeInLitList] *)
Fixpoint oppositeInLitList (lit : Literal) (litlist : list Literal) : bool :=
  match litlist with
  | [] => false
  | l :: rest => if isOpposite l lit then true else oppositeInLitList lit rest
  end.

(** The literal with the same atom and the other sign. *)
Definition complement (l : Literal) : Literal :=
  mkLiteral (negb (negative l)) (atom l).

End LiteralOps.

(** * Properties

    Helper lemmas first, then one theorem for each property of the
    specification. *)

(** ** The clause queue *)

Lemma bind_ok_inv {S A B} (m : SE S A) (f : A -> SE S B) s r s' :
  bind m f s = (Ok r, s') ->
  exists a s1, m s = (Ok a, s1) /\ f a s1 = (Ok r, s').
Proof.
  unfold bind. destruct (m s) as [[a|e] s1]; [eauto | discriminate].
Qed.

Lemma bind_ok {S A B} (m : SE S A) (f : A -> SE S B) s a s' :
  m s = (Ok a, s') -> bind m f s = f a s'.
Proof. unfold bind. now intros ->. Qed.

Section HeapFacts.

Import MinHeap.
Variables (Clause Count : Type).

Lemma parent_floor (i : Z) : parent i = (i - 1) / 2.
Proof.
  unfold parent, Qceiling, Qfloor.
  simpl.
  replace (i * 1 * 1 + -2) with (i - 2) by lia.
  Z.div_mod_to_equations. lia.
Qed.

Lemma bubbleup_step (fuel : nat) (i : Z) (t : tree Clause Count) :
  0 < i ->
  bubbleup (S fuel) i t =
    bind (tree_get ((i - 1) / 2)) (fun p =>
    bind (tree_get i) (fun n =>
    if evaluation p <=? evaluation n then ret tt
    else bind (switch i ((i - 1) / 2)) (fun _ => bubbleup fuel ((i - 1) / 2)))) t.
Proof.
  intros Hi. simpl. destruct (Z.eqb_spec i 0); [lia|].
  rewrite parent_floor. reflexivity.
Qed.

Lemma insert_singleton (root : node Clause Count) c k e :
  insert c k e [root] =
    (Ok tt, if e <? evaluation root then [Node e c k; root] else [root; Node e c k]).
Proof.
  unfold insert, bind, tree_append, tree_len. simpl.
  unfold bind, tree_get, switch, bind, tree_get, tree_set. simpl.
  destruct (Z.leb_spec (evaluation root) e); destruct (Z.ltb_spec e (evaluation root));
    try lia; reflexivity.
Qed.

Lemma getBest_nil : @getBest Clause Count [] = (Ok (None, None, true), []).
Proof. reflexivity. Qed.

Lemma getBest_single (n : node Clause Count) : getBest [n] = (Raise IndexError, []).
Proof. reflexivity. Qed.

Lemma getBest_valid (t t' : tree Clause Count) r :
  t <> [] -> getBest t = (Ok r, t') ->
  exists c k, r = (Some c, Some k, false).
Proof.
  destruct t as [|x t]; [congruence|]. intros _ H.
  unfold getBest in H.
  apply bind_ok_inv in H as (t0 & s0 & Ht & H).
  unfold get_tree in Ht. inversion Ht; subst t0 s0; clear Ht.
  repeat (apply bind_ok_inv in H as (? & ? & _ & H)).
  unfold ret in H. inversion H. eauto.
Qed.

End HeapFacts.

(** Calls with positions inside the array return: they neither raise nor run
    out of fuel, and they keep the length of the array. *)

Section HeapTotal.

Import MinHeap.
Variables (Clause Count : Type).

Lemma norm_index_in (len i : Z) :
  0 <= i < len -> PyList.norm_index len i = Some (Z.to_nat i).
Proof.
  intros H. unfold PyList.norm_index.
  destruct (Z.ltb_spec i 0); [lia|]. destruct (Z.ltb_spec i len); [reflexivity | lia].
Qed.

Lemma getitem_in {A} (l : list A) (i : Z) :
  0 <= i < Z.of_nat (List.length l) -> exists x, PyList.getitem l i = Ok x.
Proof.
  intros H. unfold PyList.getitem. rewrite norm_index_in by assumption.
  destruct (nth_error l (Z.to_nat i)) as [x|] eqn:E; [eauto|].
  apply nth_error_None in E. lia.
Qed.

Lemma update_length {A} (l : list A) (k : nat) (x : A) :
  List.length (PyList.update l k x) = List.length l.
Proof.
  revert k. induction l as [|y l IH]; intros [|k]; simpl; auto.
Qed.

Lemma tree_get_in (t : tree Clause Count) (i : Z) :
  0 <= i < Z.of_nat (List.length t) -> exists x, tree_get i t = (Ok x, t).
Proof.
  intros H. unfold tree_get. destruct (getitem_in t i H) as [x ->]. eauto.
Qed.

Lemma tree_set_in (t : tree Clause Count) (i : Z) (x : node Clause Count) :
  0 <= i < Z.of_nat (List.length t) ->
  exists t', tree_set i x t = (Ok tt, t') /\ List.length t' = List.length t.
Proof.
  intros H. unfold tree_set, PyList.setitem. rewrite norm_index_in by assumption.
  eexists. split; [reflexivity | apply update_length].
Qed.

Lemma switch_in (t : tree Clause Count) (i j : Z) :
  0 <= i < Z.of_nat (List.length t) -> 0 <= j < Z.of_nat (List.length t) ->
  exists t', switch i j t = (Ok tt, t') /\ List.length t' = List.length t.
Proof.
  intros Hi Hj. unfold switch.
  destruct (tree_get_in t i Hi) as [x Hx]. rewrite (bind_ok _ _ _ _ _ Hx).
  destruct (tree_get_in t j Hj) as [y Hy]. rewrite (bind_ok _ _ _ _ _ Hy).
  destruct (tree_set_in t i y Hi) as (t1 & H1 & L1). rewrite (bind_ok _ _ _ _ _ H1).
  destruct (tree_set_in t1 j x) as (t2 & H2 & L2); [lia|].
  exists t2. split; [assumption | lia].
Qed.

Lemma bubbleup_total (fuel : nat) :
  forall (node : Z) (t : tree Clause Count),
    0 <= node < Z.of_nat (List.length t) -> node < Z.of_nat fuel ->
    exists t', bubbleup fuel node t = (Ok tt, t') /\ List.length t' = List.length t.
Proof.
  induction fuel as [|fuel IH]; intros node t Hnode Hfuel; [lia|].
  destruct (Z.eq_dec node 0) as [->|Hnz]; [exists t; split; reflexivity|].
  rewrite bubbleup_step by lia.
  assert (Hp : 0 <= (node - 1) / 2 < node) by (Z.div_mod_to_equations; lia).
  destruct (tree_get_in t ((node - 1) / 2)) as [p Hget]; [lia|].
  rewrite (bind_ok _ _ _ _ _ Hget).
  destruct (tree_get_in t node Hnode) as [n Hn]. rewrite (bind_ok _ _ _ _ _ Hn).
  destruct (evaluation p <=? evaluation n); [exists t; split; reflexivity|].
  destruct (switch_in t node ((node - 1) / 2)) as (t1 & Hs & L1); [lia | lia |].
  rewrite (bind_ok _ _ _ _ _ Hs).
  destruct (IH ((node - 1) / 2) t1) as (t2 & H2 & L2); [lia | lia |].
  exists t2. split; [assumption | lia].
Qed.

Lemma insert_total (t : tree Clause Count) (c : Clause) (k : Count) (e : Z) :
  exists t', insert c k e t = (Ok tt, t') /\ List.length t' = S (List.length t).
Proof.
  unfold insert. cbv [bind tree_append tree_len].
  assert (L : List.length (t ++ [Node e c k]) = S (List.length t))
    by (rewrite length_app; simpl; lia).
  destruct (bubbleup_total (Z.to_nat (Z.of_nat (List.length (t ++ [Node e c k]))))
              (Z.of_nat (List.length (t ++ [Node e c k])) - 1) (t ++ [Node e c k]))
    as (t' & H & L'); [lia | lia |].
  exists t'. split; [assumption | lia].
Qed.

Lemma bubbledown_step (fuel : nat) (node : Z) (t : tree Clause Count) :
  bubbledown (S fuel) node t =
    (let leftchild := 2 * node + 1 in
     let len := Z.of_nat (List.length t) in
     if leftchild >? len - 1 then (Ok tt, t)
     else
       let rightchild := leftchild + 1 in
       if rightchild >? len - 1 then
         bind (tree_get leftchild) (fun l =>
         bind (tree_get node) (fun n =>
         bind (if evaluation l <? evaluation n then
                 bind (tree_get leftchild) (fun temp =>
                 bind (tree_get node) (fun n =>
                 bind (tree_set leftchild n) (fun _ =>
                 tree_set node temp)))
               else ret tt) (fun _ => ret tt))) t
       else
         bind (tree_get leftchild) (fun l =>
         bind (tree_get node) (fun n =>
         bind (if evaluation l <? evaluation n then ret true
               else
                 bind (tree_get rightchild) (fun r =>
                 bind (tree_get node) (fun n =>
                 ret (evaluation r <? evaluation n)))) (fun lower : bool =>
         if lower then
           bind (tree_get leftchild) (fun l =>
           bind (tree_get rightchild) (fun r =>
           if evaluation l <=? evaluation r then
             bind (switch node leftchild) (fun _ => bubbledown fuel leftchild)
           else
             bind (switch node rightchild) (fun _ => bubbledown fuel rightchild)))
         else ret tt))) t).
Proof.
  cbn [bubbledown]. cbv zeta. unfold bind at 1, tree_len at 1.
  destruct (2 * node + 1 >? Z.of_nat (List.length t) - 1); [reflexivity|].
  unfold bind at 1, tree_len at 1.
  destruct (2 * node + 1 + 1 >? Z.of_nat (List.length t) - 1); reflexivity.
Qed.

Lemma bubbledown_total (fuel : nat) :
  forall (node : Z) (t : tree Clause Count),
    0 <= node <= Z.of_nat (List.length t) ->
    Z.of_nat (List.length t) - node < Z.of_nat fuel ->
    exists t', bubbledown fuel node t = (Ok tt, t') /\ List.length t' = List.length t.
Proof.
  induction fuel as [|fuel IH]; intros node t Hnode Hfuel; [lia|].
  rewrite bubbledown_step. cbv zeta.
  destruct (Z.gtb_spec (2 * node + 1) (Z.of_nat (List.length t) - 1)) as [Hl|Hl];
    [exists t; split; reflexivity|].
  destruct (tree_get_in t (2 * node + 1)) as [l Hgl]; [lia|].
  destruct (tree_get_in t node) as [n Hgn]; [lia|].
  destruct (Z.gtb_spec (2 * node + 1 + 1) (Z.of_nat (List.length t) - 1)) as [Hr|Hr].
  - rewrite (bind_ok _ _ _ _ _ Hgl), (bind_ok _ _ _ _ _ Hgn).
    destruct (evaluation l <? evaluation n).
    + unfold bind at 1.
      rewrite (bind_ok _ _ _ _ _ Hgl), (bind_ok _ _ _ _ _ Hgn).
      destruct (tree_set_in t (2 * node + 1) n) as (t1 & H1 & L1); [lia|].
      rewrite (bind_ok _ _ _ _ _ H1).
      destruct (tree_set_in t1 node l) as (t2 & H2 & L2); [lia|].
      rewrite H2. exists t2. split; [reflexivity | lia].
    + exists t. split; reflexivity.
  - destruct (tree_get_in t (2 * node + 1 + 1)) as [r Hgr]; [lia|].
    rewrite (bind_ok _ _ _ _ _ Hgl), (bind_ok _ _ _ _ _ Hgn).
    assert (Hlow : exists lower : bool,
               (if evaluation l <? evaluation n then ret true
                else bind (tree_get (2 * node + 1 + 1)) (fun r =>
                     bind (tree_get node) (fun n => ret (evaluation r <? evaluation n)))) t
               = (Ok lower, t)).
    { destruct (evaluation l <? evaluation n); [exists true; reflexivity|].
      rewrite (bind_ok _ _ _ _ _ Hgr), (bind_ok _ _ _ _ _ Hgn). eexists. reflexivity. }
    destruct Hlow as [lower Hlow]. rewrite (bind_ok _ _ _ _ _ Hlow).
    destruct lower; [|exists t; split; reflexivity].
    rewrite (bind_ok _ _ _ _ _ Hgl), (bind_ok _ _ _ _ _ Hgr).
    destruct (evaluation l <=? evaluation r).
    + destruct (switch_in t node (2 * node + 1)) as (t1 & Hs & L1); [lia | lia |].
      rewrite (bind_ok _ _ _ _ _ Hs).
      destruct (IH (2 * node + 1) t1) as (t2 & H2 & L2); [lia | lia |].
      exists t2. split; [assumption | lia].
    + destruct (switch_in t node (2 * node + 1 + 1)) as (t1 & Hs & L1); [lia | lia |].
      rewrite (bind_ok _ _ _ _ _ Hs).
      destruct (IH (2 * node + 1 + 1) t1) as (t2 & H2 & L2); [lia | lia |].
      exists t2. split; [assumption | lia].
Qed.

Lemma pop_snoc {A} (l : list A) (x : A) : PyList.pop (l ++ [x]) = Ok (x, l).
Proof. unfold PyList.pop. rewrite rev_app_distr. simpl. now rewrite rev_involutive. Qed.

Lemma tree_get_root (x : node Clause Count) (t : tree Clause Count) :
  tree_get 0 (x :: t) = (Ok x, x :: t).
Proof. reflexivity. Qed.

Lemma tree_set_root (x z : node Clause Count) (t : tree Clause Count) :
  tree_set 0 z (x :: t) = (Ok tt, z :: t).
Proof. reflexivity. Qed.

Lemma tree_pop_snoc (t : tree Clause Count) (z : node Clause Count) :
  tree_pop (t ++ [z]) = (Ok z, t).
Proof. unfold tree_pop. now rewrite pop_snoc. Qed.

Lemma getBest_total (x y : node Clause Count) (t : tree Clause Count) :
  exists t',
    getBest (x :: y :: t) = (Ok (Some (clause x), Some (count x), false), t') /\
    List.length t' = S (List.length t).
Proof.
  destruct (exists_last (l := y :: t)) as (l & z & E); [discriminate|].
  assert (L : List.length l = List.length t).
  { apply (f_equal (@List.length _)) in E. rewrite length_app in E. simpl in E. lia. }
  rewrite E. unfold getBest.
  rewrite (bind_ok get_tree _ (x :: l ++ [z]) (x :: l ++ [z]) (x :: l ++ [z]) eq_refl).
  rewrite !(bind_ok _ _ _ _ _ (tree_get_root x (l ++ [z]))).
  rewrite (bind_ok _ _ _ _ _ (tree_pop_snoc (x :: l) z)).
  rewrite (bind_ok _ _ _ _ _ (tree_set_root x z l)).
  unfold bind at 1, tree_len at 1.
  destruct (bubbledown_total (S (Z.to_nat (Z.of_nat (List.length (z :: l))))) 0 (z :: l))
    as (t' & H & L'); [simpl; lia | lia |].
  rewrite (bind_ok _ _ _ _ _ H).
  exists t'. split; [reflexivity|]. simpl in L'. lia.
Qed.

Lemma insert_all_total (items : list (Clause * Count * Z)) (t : tree Clause Count) :
  exists t',
    insert_all items t = (Ok tt, t') /\
    List.length t' = (List.length items + List.length t)%nat.
Proof.
  revert t. induction items as [|[[c k] e] items IH]; intros t.
  - exists t. split; reflexivity.
  - destruct (insert_total t c k e) as (t1 & H1 & L1).
    destruct (IH t1) as (t2 & H2 & L2).
    exists t2. cbn [insert_all]. rewrite (bind_ok _ _ _ _ _ H1).
    split; [assumption | simpl; lia].
Qed.

Lemma drain_raises (n : nat) :
  forall (fuel : nat) (t : tree Clause Count),
    List.length t = S n -> (n < fuel)%nat ->
    exists rs, drain fuel t = (rs, Raise IndexError, []) /\ List.length rs = n.
Proof.
  induction n as [|n IH]; intros fuel t Hlen Hfuel;
    (destruct fuel as [|fuel]; [lia|]).
  - destruct t as [|x [|y t]]; try discriminate. exists []. split; reflexivity.
  - destruct t as [|x [|y t]]; try discriminate.
    destruct (getBest_total x y t) as (t' & H & L).
    destruct (IH fuel t') as (rs & Hrs & Lrs); [simpl in Hlen; lia | lia |].
    exists ((evaluation x, (Some (clause x), Some (count x), false)) :: rs).
    cbn [drain]. rewrite H, Hrs. split; [reflexivity | simpl; lia].
Qed.

End HeapTotal.

(** The heap order: [insert] keeps it, and [getBest] on two or more nodes
    returns the payload of a least node and keeps it. *)

Section HeapOrder.

Import MinHeap.
Variables (Clause Count : Type).

Lemma getitem_nth {A} (l : list A) (i : Z) :
  0 <= i < Z.of_nat (List.length l) ->
  PyList.getitem l i = match nth_error l (Z.to_nat i) with
                       | Some x => Ok x
                       | None => Raise IndexError
                       end.
Proof. intros H. unfold PyList.getitem. now rewrite norm_index_in. Qed.

Lemma nth_error_update_same {A} (l : list A) (k : nat) (x : A) :
  (k < List.length l)%nat -> nth_error (PyList.update l k x) k = Some x.
Proof.
  revert k. induction l as [|y l IH]; intros [|k] H; simpl in *; try lia; auto.
  apply IH. lia.
Qed.

Lemma nth_error_update_other {A} (l : list A) (k m : nat) (x : A) :
  m <> k -> nth_error (PyList.update l k x) m = nth_error l m.
Proof.
  revert k m. induction l as [|y l IH]; intros [|k] [|m] H; simpl; auto; try congruence.
Qed.

Lemma In_update {A} (l : list A) (k : nat) (x y : A) :
  In y (PyList.update l k x) -> y = x \/ In y l.
Proof.
  revert k. induction l as [|z l IH]; intros [|k]; simpl; auto.
  - intros [H|H]; auto.
  - intros [H|H]; auto. destruct (IH k H); auto.
Qed.

Lemma tree_get_ev (t : tree Clause Count) (i : Z) (x : node Clause Count) s :
  tree_get i t = (Ok x, s) -> evaluation x = ev t i /\ In x t /\ s = t.
Proof.
  unfold tree_get. intros H. injection H as Hx Hs. unfold ev. rewrite Hx.
  split; [reflexivity|]. split; [|now symmetry].
  unfold PyList.getitem in Hx.
  destruct (PyList.norm_index _ i); [|discriminate].
  destruct (nth_error t n) eqn:E; [|discriminate].
  inversion Hx; subst. eapply nth_error_In; eauto.
Qed.

Lemma switch_spec (t : tree Clause Count) (i j : Z) :
  0 <= i < Z.of_nat (List.length t) -> 0 <= j < Z.of_nat (List.length t) ->
  exists t',
    switch i j t = (Ok tt, t') /\ List.length t' = List.length t /\ incl t' t /\
    ev t' i = ev t j /\ ev t' j = ev t i /\
    (forall k, 0 <= k -> k <> i -> k <> j -> ev t' k = ev t k).
Proof.
  intros Hi Hj. unfold switch.
  destruct (tree_get_in _ _ t i Hi) as [x Hx]. rewrite (bind_ok _ _ _ _ _ Hx).
  destruct (tree_get_in _ _ t j Hj) as [y Hy]. rewrite (bind_ok _ _ _ _ _ Hy).
  apply tree_get_ev in Hx as (Ex & Inx & _). apply tree_get_ev in Hy as (Ey & Iny & _).
  unfold bind, tree_set, PyList.setitem.
  rewrite norm_index_in by assumption.
  rewrite update_length. rewrite norm_index_in by assumption.
  eexists. split; [reflexivity|].
  assert (L : forall a b c d,
             List.length (PyList.update (PyList.update t a b) c d) = List.length t)
    by (intros; now rewrite !update_length).
  split; [apply L|]. split.
  { intros z Hz. apply In_update in Hz as [->|Hz]; [assumption|].
    apply In_update in Hz as [->|Hz]; assumption. }
  assert (G : forall k, 0 <= k < Z.of_nat (List.length t) ->
            ev (PyList.update (PyList.update t (Z.to_nat i) y) (Z.to_nat j) x) k =
            if k =? j then evaluation x else if k =? i then evaluation y else ev t k).
  { intros k Hk. unfold ev. rewrite !getitem_nth by (rewrite ?L; assumption).
    destruct (Z.eqb_spec k j) as [->|Hkj].
    - rewrite nth_error_update_same by (rewrite update_length; lia). reflexivity.
    - rewrite nth_error_update_other by lia.
      destruct (Z.eqb_spec k i) as [->|Hki].
      + rewrite nth_error_update_same by lia. reflexivity.
      + rewrite nth_error_update_other by lia. reflexivity. }
  split; [|split].
  - rewrite G by assumption. destruct (Z.eqb_spec i j) as [->|]; [lia|].
    rewrite Z.eqb_refl. lia.
  - rewrite G by assumption. rewrite Z.eqb_refl. lia.
  - intros k Hk Hki Hkj.
    destruct (Z.ltb_spec k (Z.of_nat (List.length t))) as [Hlt|Hge].
    + rewrite G by lia.
      destruct (Z.eqb_spec k j); [contradiction|]. destruct (Z.eqb_spec k i); [contradiction|].
      reflexivity.
    + unfold ev, PyList.getitem. rewrite L. unfold PyList.norm_index.
      destruct (Z.ltb_spec k 0); [lia|].
      destruct (Z.ltb_spec k (Z.of_nat (List.length t))); [lia|]. reflexivity.
Qed.

Lemma switch_ev (t : tree Clause Count) (i j : Z) :
  0 <= i < Z.of_nat (List.length t) -> 0 <= j < Z.of_nat (List.length t) ->
  exists t',
    switch i j t = (Ok tt, t') /\ List.length t' = List.length t /\ incl t' t /\
    (forall m, 0 <= m ->
       ev t' m = if m =? i then ev t j else if m =? j then ev t i else ev t m).
Proof.
  intros Hi Hj. destruct (switch_spec t i j Hi Hj) as (t' & H & L & I & Ei & Ej & Eo).
  exists t'. repeat split; try assumption. intros m Hm.
  destruct (Z.eqb_spec m i) as [->|Hmi]; [assumption|].
  destruct (Z.eqb_spec m j) as [->|Hmj]; [assumption|]. now apply Eo.
Qed.

Lemma parent_cases (i : Z) :
  0 < i -> 0 <= (i - 1) / 2 < i /\ (i = 2 * ((i - 1) / 2) + 1 \/ i = 2 * ((i - 1) / 2) + 2).
Proof. intros H. Z.div_mod_to_equations. lia. Qed.

Lemma bubbleup_heap (fuel : nat) :
  forall (k : Z) (t : tree Clause Count),
    0 <= k < Z.of_nat (List.length t) -> k < Z.of_nat fuel -> up_inv t k ->
    exists t',
      bubbleup fuel k t = (Ok tt, t') /\ List.length t' = List.length t /\
      incl t' t /\ heap_ordered t'.
Proof.
  induction fuel as [|fuel IH]; intros k t Hk Hfuel [Hup1 Hup2]; [lia|].
  destruct (Z.eq_dec k 0) as [->|Hnz].
  { exists t. repeat split; try apply incl_refl. intros i Hi. apply Hup1; lia. }
  rewrite bubbleup_step by lia.
  destruct (parent_cases k) as [Hp Hp']; [lia|].
  remember ((k - 1) / 2) as p eqn:Ep.
  destruct (tree_get_in _ _ t p) as [xp Hxp]; [lia|]. rewrite (bind_ok _ _ _ _ _ Hxp).
  destruct (tree_get_in _ _ t k Hk) as [xk Hxk]. rewrite (bind_ok _ _ _ _ _ Hxk).
  apply tree_get_ev in Hxp as (-> & _ & _). apply tree_get_ev in Hxk as (-> & _ & _).
  destruct (Z.leb_spec (ev t p) (ev t k)) as [Hle|Hgt].
  { exists t. repeat split; try apply incl_refl. intros i Hi.
    destruct (Z.eq_dec i k) as [->|Hik]; [now rewrite <- Ep | now apply Hup1]. }
  clear Ep.
  destruct (switch_ev t k p) as (t1 & Hs & L1 & I1 & E1); [lia | lia |].
  rewrite (bind_ok _ _ _ _ _ Hs).
  destruct (IH p t1) as (t2 & H2 & L2 & I2 & Hheap); [lia | lia | |].
  - split.
    + intros i Hi Hip. rewrite L1 in Hi.
      pose proof (Hup1 i Hi) as A1. pose proof (Hup2 i Hi) as A2.
      destruct (parent_cases i) as [Hq Hq']; [lia|].
      remember ((i - 1) / 2) as q eqn:Eq. clear Eq.
      rewrite !E1 by lia.
      destruct (Z.eqb_spec i k); destruct (Z.eqb_spec i p);
        destruct (Z.eqb_spec q k); destruct (Z.eqb_spec q p);
        subst; try lia.
    + intros i Hi Hp0 Hpar. rewrite L1 in Hi.
      pose proof (Hup1 i Hi) as A1. pose proof (Hup1 p) as A3.
      destruct (parent_cases p) as [Hg Hg']; [lia|].
      destruct (parent_cases i) as [Hq Hq']; [lia|]. rewrite Hpar in *.
      remember ((p - 1) / 2) as g eqn:Eg. clear Eg.
      rewrite !E1 by lia.
      destruct (Z.eqb_spec i k); destruct (Z.eqb_spec i p);
        destruct (Z.eqb_spec g k); destruct (Z.eqb_spec g p);
        subst; try lia.
  - exists t2. repeat split; try assumption; try lia.
    intros z Hz. apply I1, I2, Hz.
Qed.

Lemma ev_app_l (t : tree Clause Count) (x : node Clause Count) (i : Z) :
  0 <= i < Z.of_nat (List.length t) -> ev (t ++ [x]) i = ev t i.
Proof.
  intros H. unfold ev.
  rewrite !getitem_nth by (rewrite ?length_app; simpl; lia).
  rewrite nth_error_app1 by lia. reflexivity.
Qed.

Lemma insert_heap (t : tree Clause Count) (c : Clause) (k : Count) (e : Z) :
  heap_ordered t ->
  exists t',
    insert c k e t = (Ok tt, t') /\ List.length t' = S (List.length t) /\
    incl t' (t ++ [Node e c k]) /\ heap_ordered t'.
Proof.
  intros Hheap. unfold insert. cbv [bind tree_append tree_len].
  assert (L : List.length (t ++ [Node e c k]) = S (List.length t))
    by (rewrite length_app; simpl; lia).
  destruct (bubbleup_heap (Z.to_nat (Z.of_nat (List.length (t ++ [Node e c k]))))
              (Z.of_nat (List.length (t ++ [Node e c k])) - 1) (t ++ [Node e c k]))
    as (t' & H & L' & I & Hh); [lia | lia | |].
  - rewrite L. split.
    + intros i Hi Hne. destruct (parent_cases i) as [Hq _]; [lia|].
      rewrite !ev_app_l by lia. apply Hheap. lia.
    + intros i Hi _ Hpar. destruct (parent_cases i) as [Hq _]; lia.
  - exists t'. repeat split; try assumption. lia.
Qed.

Lemma down_done (t : tree Clause Count) (k : Z) :
  0 <= k -> down_inv t k ->
  (forall s, s = 2 * k + 1 \/ s = 2 * k + 2 -> s < Z.of_nat (List.length t) ->
             ev t k <= ev t s) ->
  heap_ordered t.
Proof.
  intros Hk [Hd1 Hd2] Hch i Hi.
  destruct (parent_cases i) as [Hq Hq']; [lia|].
  destruct (Z.eq_dec ((i - 1) / 2) k) as [E|E].
  - rewrite E in *. apply Hch; lia.
  - now apply Hd1.
Qed.

Lemma down_swap (t t1 : tree Clause Count) (k c : Z) :
  0 <= k -> c = 2 * k + 1 \/ c = 2 * k + 2 -> c < Z.of_nat (List.length t) ->
  down_inv t k ->
  List.length t1 = List.length t ->
  (forall m, 0 <= m -> ev t1 m = if m =? k then ev t c else if m =? c then ev t k else ev t m) ->
  ev t c <= ev t k ->
  (forall s, s = 2 * k + 1 \/ s = 2 * k + 2 -> s < Z.of_nat (List.length t) ->
             ev t c <= ev t s) ->
  down_inv t1 c.
Proof.
  intros Hk Hc Hlen [Hd1 Hd2] L1 E1 Hck Hmin. split.
  - intros i Hi Hqc. rewrite L1 in Hi.
    destruct (parent_cases i) as [Hq Hq']; [lia|].
    pose proof (Hd1 i Hi) as A1. pose proof (Hd2 c) as A2.
    pose proof (Hmin i) as A3.
    destruct (parent_cases c) as [_ Hcq]; [lia|].
    assert (Ec : (c - 1) / 2 = k) by lia. rewrite Ec in A2.
    remember ((i - 1) / 2) as q eqn:Eq. clear Eq.
    rewrite !E1 by lia.
    destruct (Z.eqb_spec i k) as [->|Hik].
    + (* i = k: its parent is outside the swap *)
      destruct (Z.eqb_spec q k); [lia|]. destruct (Z.eqb_spec q c); [lia|].
      pose proof (Hd2 c) as A4. rewrite Ec in A4.
      assert (Eg : q = (k - 1) / 2).
      { destruct (parent_cases k) as [_ Hg]; lia. }
      rewrite Eg. apply A2; lia.
    + destruct (Z.eqb_spec i c) as [->|Hic].
      * destruct (Z.eqb_spec q k); [lia|]. lia.
      * destruct (Z.eqb_spec q k) as [->|Hqk]; [apply A3; lia|].
        destruct (Z.eqb_spec q c); [lia|]. now apply A1.
  - intros i Hi Hc0 Hpar. rewrite L1 in Hi.
    destruct (parent_cases i) as [Hq Hq']; [lia|].
    destruct (parent_cases c) as [_ Hcq]; [lia|].
    assert (Ec : (c - 1) / 2 = k) by lia. rewrite Ec.
    pose proof (Hd1 i Hi) as A1. rewrite Hpar in A1.
    rewrite !E1 by lia. rewrite Z.eqb_refl.
    destruct (Z.eqb_spec i k); [lia|]. destruct (Z.eqb_spec i c); [lia|].
    apply A1. lia.
Qed.

Lemma bubbledown_heap (fuel : nat) :
  forall (k : Z) (t : tree Clause Count),
    0 <= k <= Z.of_nat (List.length t) ->
    Z.of_nat (List.length t) - k < Z.of_nat fuel ->
    down_inv t k ->
    exists t',
      bubbledown fuel k t = (Ok tt, t') /\ List.length t' = List.length t /\
      incl t' t /\ heap_ordered t'.
Proof.
  induction fuel as [|fuel IH]; intros k t Hk Hfuel Hinv; [lia|].
  rewrite bubbledown_step. cbv zeta.
  destruct (Z.gtb_spec (2 * k + 1) (Z.of_nat (List.length t) - 1)) as [Hl|Hl].
  { exists t. repeat split; try apply incl_refl.
    apply (down_done t k); [lia | assumption | intros s Hs Hlt; lia]. }
  destruct (tree_get_in _ _ t (2 * k + 1)) as [l Hgl]; [lia|].
  destruct (tree_get_in _ _ t k) as [n Hgn]; [lia|].
  pose proof (tree_get_ev _ _ _ _ Hgl) as (El & _ & _).
  pose proof (tree_get_ev _ _ _ _ Hgn) as (En & _ & _).
  destruct (Z.gtb_spec (2 * k + 1 + 1) (Z.of_nat (List.length t) - 1)) as [Hr|Hr].
  - (* one child *)
    rewrite (bind_ok _ _ _ _ _ Hgl), (bind_ok _ _ _ _ _ Hgn). rewrite El, En.
    destruct (Z.ltb_spec (ev t (2 * k + 1)) (ev t k)) as [Hlt|Hge].
    + change (bind (tree_get (2 * k + 1)) (fun temp =>
              bind (tree_get k) (fun n0 =>
              bind (tree_set (2 * k + 1) n0) (fun _ => tree_set k temp))))
        with (@switch Clause Count (2 * k + 1) k).
      destruct (switch_ev t (2 * k + 1) k) as (t1 & Hs & L1 & I1 & E1); [lia | lia |].
      rewrite (bind_ok _ _ _ _ _ Hs). exists t1. repeat split; try assumption.
      apply (down_done t1 (2 * k + 1)); [lia | | intros s Hs' Hlt'; lia].
      apply (down_swap t t1 k (2 * k + 1)); try assumption; try lia.
      * intros m Hm. rewrite E1 by assumption.
        destruct (Z.eqb_spec m (2 * k + 1)); destruct (Z.eqb_spec m k); try lia; reflexivity.
      * intros s Hs' Hlt'. assert (s = 2 * k + 1) by lia. subst s. lia.
    + exists t. repeat split; try apply incl_refl.
      apply (down_done t k); [lia | assumption |].
      intros s Hs' Hlt'. assert (s = 2 * k + 1) by lia. subst s. assumption.
  - (* two children *)
    destruct (tree_get_in _ _ t (2 * k + 1 + 1)) as [r Hgr]; [lia|].
    pose proof (tree_get_ev _ _ _ _ Hgr) as (Er & _ & _).
    rewrite (bind_ok _ _ _ _ _ Hgl), (bind_ok _ _ _ _ _ Hgn).
    assert (Hlow : (if evaluation l <? evaluation n then ret true
                    else bind (tree_get (2 * k + 1 + 1)) (fun r =>
                         bind (tree_get k) (fun n => ret (evaluation r <? evaluation n)))) t
                   = (Ok ((ev t (2 * k + 1) <? ev t k) || (ev t (2 * k + 1 + 1) <? ev t k)), t)).
    { rewrite El, En. destruct (ev t (2 * k + 1) <? ev t k); [reflexivity|].
      rewrite (bind_ok _ _ _ _ _ Hgr), (bind_ok _ _ _ _ _ Hgn). now rewrite Er, En. }
    rewrite (bind_ok _ _ _ _ _ Hlow).
    destruct ((ev t (2 * k + 1) <? ev t k) || (ev t (2 * k + 1 + 1) <? ev t k)) eqn:Elow.
    + apply orb_true_iff in Elow. rewrite !Z.ltb_lt in Elow.
      rewrite (bind_ok _ _ _ _ _ Hgl), (bind_ok _ _ _ _ _ Hgr). rewrite El, Er.
      destruct (Z.leb_spec (ev t (2 * k + 1)) (ev t (2 * k + 1 + 1))) as [Hle|Hgt].
      * destruct (switch_ev t k (2 * k + 1)) as (t1 & Hs & L1 & I1 & E1); [lia | lia |].
        rewrite (bind_ok _ _ _ _ _ Hs).
        destruct (IH (2 * k + 1) t1) as (t2 & H2 & L2 & I2 & Hh); [lia | lia | |].
        { apply (down_swap t t1 k (2 * k + 1)); try assumption; try lia.
          intros s Hs' Hlt'. destruct Hs' as [->| ->]; [lia|].
          replace (2 * k + 2) with (2 * k + 1 + 1) by lia. lia. }
        exists t2. repeat split; try assumption; try lia.
        intros z Hz. apply I1, I2, Hz.
      * destruct (switch_ev t k (2 * k + 1 + 1)) as (t1 & Hs & L1 & I1 & E1); [lia | lia |].
        rewrite (bind_ok _ _ _ _ _ Hs).
        destruct (IH (2 * k + 1 + 1) t1) as (t2 & H2 & L2 & I2 & Hh); [lia | lia | |].
        { apply (down_swap t t1 k (2 * k + 1 + 1)); try assumption; try lia.
          intros s Hs' Hlt'. destruct Hs' as [->| ->]; [lia|].
          replace (2 * k + 2) with (2 * k + 1 + 1) by lia. lia. }
        exists t2. repeat split; try assumption; try lia.
        intros z Hz. apply I1, I2, Hz.
    + apply orb_false_iff in Elow. rewrite !Z.ltb_ge in Elow.
      exists t. repeat split; try apply incl_refl.
      apply (down_done t k); [lia | assumption |].
      intros s Hs' Hlt'. destruct Hs' as [->| ->]; [lia|].
      replace (2 * k + 2) with (2 * k + 1 + 1) by lia. lia.
Qed.

Lemma nth_error_lt {A} (l : list A) (n : nat) (x : A) :
  nth_error l n = Some x -> (n < List.length l)%nat.
Proof. intros H. apply nth_error_Some. congruence. Qed.

Lemma ev_nth (t : tree Clause Count) (n : nat) (x : node Clause Count) :
  nth_error t n = Some x -> ev t (Z.of_nat n) = evaluation x.
Proof.
  intros H. unfold ev. rewrite getitem_nth.
  - now rewrite Nat2Z.id, H.
  - apply nth_error_lt in H. lia.
Qed.

Lemma root_min (t : tree Clause Count) :
  heap_ordered t ->
  forall i, 0 <= i < Z.of_nat (List.length t) -> ev t 0 <= ev t i.
Proof.
  intros Hheap i Hi.
  assert (G : forall n i, 0 <= i < Z.of_nat (List.length t) -> i <= Z.of_nat n ->
                          ev t 0 <= ev t i).
  { induction n as [|n IHn]; intros j Hj Hn.
    - assert (j = 0) by lia. subst. lia.
    - destruct (Z.eq_dec j 0) as [->|Hnz]; [lia|].
      destruct (parent_cases j) as [Hq _]; [lia|].
      specialize (IHn ((j - 1) / 2)). specialize (Hheap j). lia. }
  apply (G (Z.to_nat i)); lia.
Qed.

Lemma root_least (x : node Clause Count) (t : tree Clause Count) :
  heap_ordered (x :: t) -> forall y, In y (x :: t) -> evaluation x <= evaluation y.
Proof.
  intros Hheap y Hy. apply In_nth_error in Hy as [n Hn].
  rewrite <- (ev_nth (x :: t) 0 x eq_refl), <- (ev_nth _ _ _ Hn).
  apply root_min; [assumption|]. apply nth_error_lt in Hn. lia.
Qed.

Lemma getBest_heap (x y : node Clause Count) (t : tree Clause Count) :
  heap_ordered (x :: y :: t) ->
  exists t',
    getBest (x :: y :: t) = (Ok (Some (clause x), Some (count x), false), t') /\
    List.length t' = S (List.length t) /\ incl t' (y :: t) /\ heap_ordered t'.
Proof.
  intros Hheap.
  destruct (exists_last (l := y :: t)) as (l & z & E); [discriminate|].
  assert (L : List.length l = List.length t).
  { apply (f_equal (@List.length _)) in E. rewrite length_app in E. simpl in E. lia. }
  rewrite E in *. unfold getBest.
  rewrite (bind_ok get_tree _ (x :: l ++ [z]) (x :: l ++ [z]) (x :: l ++ [z]) eq_refl).
  rewrite !(bind_ok _ _ _ _ _ (tree_get_root _ _ x (l ++ [z]))).
  rewrite (bind_ok _ _ _ _ _ (tree_pop_snoc _ _ (x :: l) z)).
  rewrite (bind_ok _ _ _ _ _ (tree_set_root _ _ x z l)).
  unfold bind at 1, tree_len at 1.
  destruct (bubbledown_heap (S (Z.to_nat (Z.of_nat (List.length (z :: l))))) 0 (z :: l))
    as (t' & H & L' & I & Hh); [simpl; lia | lia | |].
  - assert (Hev : forall m, 0 < m < Z.of_nat (List.length (z :: l)) ->
                            ev (z :: l) m = ev (x :: l ++ [z]) m).
    { intros m Hm. cbn [List.length] in Hm. unfold ev.
      rewrite !getitem_nth by (cbn [List.length]; rewrite ?length_app; simpl; lia).
      destruct (Z.to_nat m) as [|n] eqn:En; [lia|]. cbn [nth_error].
      rewrite nth_error_app1 by lia. reflexivity. }
    split; [|intros i Hi Hk; lia].
    intros i Hi Hpar. destruct (parent_cases i) as [Hq _]; [lia|].
    rewrite !Hev by lia. apply Hheap.
    cbn [List.length] in *. rewrite length_app. simpl. lia.
  - rewrite (bind_ok _ _ _ _ _ H). exists t'. split; [reflexivity|].
    split; [simpl in L'; lia|]. split; [|assumption].
    intros w Hw. apply I in Hw. apply in_or_app. destruct Hw as [->|Hw]; [right; now left | now left].
Qed.

Lemma drain_head (fuel : nat) (t t' : tree Clause Count) e r rs how :
  drain fuel t = ((e, r) :: rs, how, t') -> e = root_evaluation t /\ t <> [].
Proof.
  destruct fuel as [|fuel]; [discriminate|]. cbn [drain].
  destruct t as [|x t]; [discriminate|].
  destruct (getBest (x :: t)) as [[[[c k] [|]]|] t1]; try discriminate.
  destruct (drain fuel t1) as [[rs1 how1] t2]. intros H. inversion H. split; [reflexivity | discriminate].
Qed.

Lemma drain_sorted (fuel : nat) :
  forall t : tree Clause Count,
    heap_ordered t -> Sorted Z.le (map fst (fst (fst (drain fuel t)))).
Proof.
  induction fuel as [|fuel IH]; intros t Hheap; [constructor|].
  destruct t as [|x [|y t]]; try constructor.
  destruct (getBest_heap x y t Hheap) as (t' & H & L & I & Hh).
  cbn [drain]. rewrite H. specialize (IH t' Hh).
  destruct (drain fuel t') as [[rs how] t''] eqn:Ed. cbn [fst map] in *.
  constructor; [assumption|].
  destruct rs as [|[e r] rs]; constructor. cbn [fst].
  apply drain_head in Ed as [-> Hne]. destruct t' as [|x' t']; [congruence|].
  cbn [root_evaluation]. apply (root_least x (y :: t) Hheap). right. apply I. now left.
Qed.

Lemma heap_ordered_nil : heap_ordered (@nil (node Clause Count)).
Proof. intros i Hi. simpl in Hi. lia. Qed.

Lemma insert_all_heap (items : list (Clause * Count * Z)) (t : tree Clause Count) :
  heap_ordered t ->
  exists t',
    insert_all items t = (Ok tt, t') /\
    List.length t' = (List.length items + List.length t)%nat /\ heap_ordered t'.
Proof.
  revert t. induction items as [|[[c k] e] items IH]; intros t Hheap.
  - exists t. repeat split; assumption.
  - destruct (insert_heap t c k e Hheap) as (t1 & H1 & L1 & _ & Hh1).
    destruct (IH t1 Hh1) as (t2 & H2 & L2 & Hh2).
    exists t2. cbn [insert_all]. rewrite (bind_ok _ _ _ _ _ H1).
    repeat split; try assumption. simpl. lia.
Qed.

End HeapOrder.

(** ** Literals *)

Section LiteralFacts.

Import Terms Lexer Literals.
Local Open Scope string_scope.

(** Induction on terms that reaches the arguments of an application. *)
Lemma term_nested_ind (P : term -> Prop) :
  (forall x, P (Var x)) ->
  (forall f args, Forall P args -> P (Fun f args)) ->
  forall t, P t.
Proof.
  intros HVar HFun. fix IH 1. intros [x|f args].
  - apply HVar.
  - apply HFun. induction args as [|a args IHargs]; constructor.
    + apply IH.
    + apply IHargs.
Qed.

Lemma termEqual_true_iff (s t : term) : termEqual s t = true <-> s = t.
Proof.
  revert t. induction s as [x|f args IH] using term_nested_ind; intros [y|g args'];
    simpl; try (split; [discriminate | congruence]).
  - rewrite String.eqb_eq. split; congruence.
  - rewrite andb_true_iff, String.eqb_eq.
    assert (Hargs : forall l2,
               (fix termListEqual (l1 l2 : list term) : bool :=
                  match l1, l2 with
                  | [], [] => true
                  | s :: l1', t :: l2' => termEqual s t && termListEqual l1' l2'
                  | _, _ => false
                  end) args l2 = true <-> args = l2).
    { induction IH as [|a args Ha _ IHargs]; intros [|b l2];
        try (split; [discriminate | congruence]).
      - tauto.
      - rewrite andb_true_iff, Ha, IHargs. split; [intros []|intros H; inversion H]; subst; auto. }
    rewrite Hargs. split; [intros []|intros H; inversion H]; subst; auto.
Qed.

Lemma termEqual_refl (t : term) : termEqual t t = true.
Proof. now apply termEqual_true_iff. Qed.

Lemma termEqual_sym (s t : term) : termEqual s t = termEqual t s.
Proof.
  destruct (termEqual s t) eqn:Hst, (termEqual t s) eqn:Hts; auto.
  - apply termEqual_true_iff in Hst. subst. now rewrite termEqual_refl in Hts.
  - apply termEqual_true_iff in Hts. subst. now rewrite termEqual_refl in Hst.
Qed.

Lemma Literal_init_head (a : term) (s : bool) (l : Literal) :
  Literal_init a s = Ok l -> termFunc (atom l) <> Ok "!=".
Proof.
  destruct a as [x|f args]; [discriminate|].
  unfold Literal_init; cbn [termFunc termArgs bindr].
  destruct (String.eqb f "!=") eqn:Hf; intros H; inversion H; subst; cbn;
    intros E; inversion E; subst.
  now rewrite String.eqb_refl in Hf.
Qed.

Lemma lift_ok_inv {S A} (r : result A) (s s' : S) a :
  lift r s = (Ok a, s') -> r = Ok a.
Proof. unfold lift. congruence. Qed.

End LiteralFacts.

(** No literal that the parser returns is headed by [!=]. *)

Section HeadFacts.

Import Terms Lexer Literals.
Local Open Scope string_scope.

Lemma parseLiteral_normalised (lex lex' : lexer) (l : Literal) :
  parseLiteral lex = (Ok l, lex') -> normalised l.
Proof.
  intros H. unfold parseLiteral in H.
  repeat (apply bind_ok_inv in H as (? & ? & _ & H)).
  apply lift_ok_inv in H. eapply Literal_init_head; eauto.
Qed.

Lemma parseLiteralItem_normalised (res res' : list Literal) (lex lex' : lexer) :
  Forall normalised res -> parseLiteralItem res lex = (Ok res', lex') -> Forall normalised res'.
Proof.
  intros Hres H. unfold parseLiteralItem in H.
  apply bind_ok_inv in H as (look & lex1 & _ & H).
  destruct (String.eqb look "$false").
  - apply bind_ok_inv in H as (tok & lex2 & _ & H).
    unfold ret in H. inversion H; subst. assumption.
  - apply bind_ok_inv in H as (lit & lex2 & Hlit & H).
    unfold ret in H. inversion H; subst.
    apply Forall_app. split; [assumption|].
    constructor; [|constructor]. eapply parseLiteral_normalised; eauto.
Qed.

Lemma parseLiteralList_loop_normalised (fuel : nat) :
  forall (res res' : list Literal) (lex lex' : lexer),
    Forall normalised res ->
    parseLiteralList_loop fuel res lex = (Ok res', lex') -> Forall normalised res'.
Proof.
  induction fuel as [|fuel IH]; intros res res' lex lex' Hres H; [discriminate|].
  cbn [parseLiteralList_loop] in H.
  apply bind_ok_inv in H as (more & lex1 & _ & H).
  destruct more.
  - apply bind_ok_inv in H as (tok & lex2 & _ & H).
    apply bind_ok_inv in H as (res1 & lex3 & Hitem & H).
    eapply IH; [|exact H]. eapply parseLiteralItem_normalised; eauto.
  - unfold ret in H. inversion H; subst. assumption.
Qed.

Lemma parseLiteralList_normalised (lex lex' : lexer) (L : list Literal) :
  parseLiteralList lex = (Ok L, lex') -> Forall normalised L.
Proof.
  intros H. unfold parseLiteralList in H.
  apply bind_ok_inv in H as (res & lex1 & Hitem & H).
  eapply parseLiteralList_loop_normalised; [|exact H].
  eapply parseLiteralItem_normalised; [constructor | exact Hitem].
Qed.

End HeadFacts.

(** ** The enumeration of resolvents and factors *)

Section InferenceFacts.

Import ResControl.
Local Open Scope nat_scope.

Variables (Clause ClauseSet Lit : Type).
Variable len : Clause -> nat.
Variable getLiteral : Clause -> nat -> Lit.
Variable truth : Clause -> bool.
Variable getResolutionLiterals : ClauseSet -> Lit -> list (Clause * nat).
Variable resolution : Clause -> nat -> Clause -> nat -> option Clause.
Variable factor : Clause -> nat -> nat -> option Clause.

Lemma factors_inner (c : Clause) (i : nat) (js : list nat) (st : run Clause (nat * nat)) :
  fold_left (factors_step truth factor c i) js st =
    (fst st ++ map (pair i) js,
     snd st ++ flat_map (kept_factor truth factor c) (map (pair i) js)).
Proof.
  revert st. induction js as [|j js IH]; intros [calls res]; simpl.
  - now rewrite !app_nil_r.
  - rewrite IH. unfold factors_step, kept_factor. simpl.
    destruct (factor c i j) as [f|]; [destruct (truth f)|]; simpl;
      rewrite <- ?app_assoc; simpl; now rewrite ?app_nil_r.
Qed.

Lemma factors_outer (c : Clause) (n : nat) (rows : list nat) (st : run Clause (nat * nat)) :
  fold_left (fun st i => fold_left (factors_step truth factor c i) (xrange (i + 1) n) st) rows st =
    (fst st ++ flat_map (fun i => map (pair i) (xrange (i + 1) n)) rows,
     snd st ++ flat_map (kept_factor truth factor c)
                 (flat_map (fun i => map (pair i) (xrange (i + 1) n)) rows)).
Proof.
  revert st. induction rows as [|i rows IH]; intros [calls res]; simpl.
  - now rewrite !app_nil_r.
  - rewrite IH, factors_inner. simpl. now rewrite flat_map_app, !app_assoc.
Qed.

Lemma computeAllFactors_run_eq (c : Clause) :
  computeAllFactors_run len truth factor c =
    (position_pairs (len c),
     flat_map (kept_factor truth factor c) (position_pairs (len c))).
Proof. unfold computeAllFactors_run. now rewrite factors_outer. Qed.

Lemma resolvents_inner (c : Clause) (lit : nat) (ps : list (Clause * nat))
    (st : run Clause (nat * Clause * nat)) :
  fold_left (resolvents_step resolution c lit) ps st =
    (fst st ++ map (fun p => (lit, fst p, snd p)) ps,
     snd st ++ flat_map (resolvent_of resolution c)
                 (map (fun p => (lit, fst p, snd p)) ps)).
Proof.
  revert st. induction ps as [|[cl2 lit2] ps IH]; intros [calls res]; simpl.
  - now rewrite !app_nil_r.
  - rewrite IH. simpl.
    destruct (resolution c lit cl2 lit2) as [r|]; simpl;
      rewrite <- ?app_assoc; simpl; now rewrite ?app_nil_r.
Qed.

Lemma computeAllResolvents_run_eq (c : Clause) (cs : ClauseSet) :
  computeAllResolvents_run len getLiteral getResolutionLiterals resolution c cs =
    (candidates len getLiteral getResolutionLiterals c cs,
     flat_map (resolvent_of resolution c)
       (candidates len getLiteral getResolutionLiterals c cs)).
Proof.
  unfold computeAllResolvents_run, candidates.
  generalize (xrange 0 (len c)) as lits.
  assert (H : forall lits st,
    fold_left
      (fun st lit =>
         fold_left (resolvents_step resolution c lit)
           (getResolutionLiterals cs (getLiteral c lit)) st) lits st =
    (fst st ++ flat_map (fun lit => map (fun p : Clause * nat => (lit, fst p, snd p))
                                   (getResolutionLiterals cs (getLiteral c lit))) lits,
     snd st ++ flat_map (resolvent_of resolution c)
                 (flat_map (fun lit => map (fun p : Clause * nat => (lit, fst p, snd p))
                                   (getResolutionLiterals cs (getLiteral c lit))) lits))).
  { induction lits as [|lit lits IH]; intros [calls res]; simpl.
    - now rewrite !app_nil_r.
    - rewrite IH, resolvents_inner. simpl. now rewrite flat_map_app, !app_assoc. }
  intros lits. now rewrite H.
Qed.

Lemma resolvents_plus_misses (c : Clause) (l : list (nat * Clause * nat)) :
  List.length (flat_map (resolvent_of resolution c) l) +
  List.length (filter (no_resolvent resolution c) l) = List.length l.
Proof.
  induction l as [|[[lit cl2] lit2] l IH]; simpl; [reflexivity|].
  destruct (resolution c lit cl2 lit2); simpl; lia.
Qed.

Lemma candidates_length (c : Clause) (cs : ClauseSet) :
  List.length (candidates len getLiteral getResolutionLiterals c cs) =
    list_sum (map (partner_count getLiteral getResolutionLiterals c cs) (xrange 0 (len c))).
Proof.
  unfold candidates. generalize (xrange 0 (len c)) as lits.
  induction lits as [|lit lits IH]; simpl; [reflexivity|].
  rewrite length_app, length_map, IH. reflexivity.
Qed.

Lemma in_candidates (c : Clause) (cs : ClauseSet) lit cl2 lit2 :
  In (lit, cl2, lit2) (candidates len getLiteral getResolutionLiterals c cs) <->
  lit < len c /\ In (cl2, lit2) (getResolutionLiterals cs (getLiteral c lit)).
Proof.
  unfold candidates, xrange. rewrite in_flat_map. split.
  - intros (i & Hi & Hin). apply in_seq in Hi. apply in_map_iff in Hin as ([a b] & E & Hp).
    simpl in E. inversion E; subst. split; [lia | assumption].
  - intros [Hlt Hin]. exists lit. split; [apply in_seq; lia|].
    apply in_map_iff. exists (cl2, lit2). auto.
Qed.

Lemma in_position_pairs (n i j : nat) :
  In (i, j) (position_pairs n) <-> i < j < n.
Proof.
  unfold position_pairs, xrange. rewrite in_flat_map. split.
  - intros (i' & Hi & Hin). apply in_seq in Hi. apply in_map_iff in Hin as (j' & E & Hj).
    inversion E; subst. apply in_seq in Hj. lia.
  - intros H. exists i. split; [apply in_seq; lia|].
    apply in_map_iff. exists j. split; [reflexivity | apply in_seq; lia].
Qed.

Lemma NoDup_position_pairs (n : nat) : NoDup (position_pairs n).
Proof.
  unfold position_pairs. generalize (seq_NoDup (n - 0) 0). unfold xrange.
  generalize (seq 0 (n - 0)) as rows.
  induction rows as [|i rows IH]; intros Hnd; simpl; [constructor|].
  inversion Hnd as [|? ? Hi Hnd']; subst.
  apply NoDup_app.
  - apply Injective_map_NoDup; [|apply seq_NoDup].
    intros a b E. now inversion E.
  - now apply IH.
  - intros [a b] Ha Hb. apply in_map_iff in Ha as (j & E & _). inversion E; subst.
    apply in_flat_map in Hb as (i' & Hi' & Hb).
    apply in_map_iff in Hb as (j' & E' & _). inversion E'; subst. contradiction.
Qed.

Lemma sum_below (k a : nat) :
  2 * list_sum (map (fun i => (a + k) - (i + 1)) (seq a k)) = k * (k - 1).
Proof.
  revert a. induction k as [|k IH]; intros a; simpl; [reflexivity|].
  replace (a + S k - (a + 1)) with k by lia.
  rewrite (map_ext_in _ (fun i => (S a + k) - (i + 1))).
  - specialize (IH (S a)). nia.
  - intros i _. f_equal. lia.
Qed.

Lemma position_pairs_length (n : nat) :
  List.length (position_pairs n) = n * (n - 1) / 2.
Proof.
  apply Nat.div_unique_exact; [lia|].
  rewrite <- (sum_below n 0). f_equal.
  unfold position_pairs, xrange. rewrite length_flat_map, Nat.sub_0_r.
  f_equal. apply map_ext. intros i. now rewrite length_map, length_seq.
Qed.

Lemma in_computeAllFactors (c : Clause) (f : Clause) :
  In f (computeAllFactors len truth factor c) <->
  exists i j, i < j < len c /\ factor c i j = Some f /\ truth f = true.
Proof.
  unfold computeAllFactors. rewrite computeAllFactors_run_eq. simpl.
  rewrite in_flat_map. split.
  - intros ([i j] & Hp & Hin). apply in_position_pairs in Hp.
    unfold kept_factor in Hin. simpl in Hin.
    destruct (factor c i j) as [g|] eqn:Hg; [|contradiction].
    destruct (truth g) eqn:Ht; [|contradiction].
    destruct Hin as [->|[]]. eauto.
  - intros (i & j & Hij & Hf & Ht). exists (i, j). split; [now apply in_position_pairs|].
    unfold kept_factor. simpl. rewrite Hf, Ht. now left.
Qed.

Lemma in_computeAllResolvents (c : Clause) (cs : ClauseSet) (r : Clause) :
  In r (computeAllResolvents len getLiteral getResolutionLiterals resolution c cs) <->
  exists lit cl2 lit2,
    lit < len c /\ In (cl2, lit2) (getResolutionLiterals cs (getLiteral c lit)) /\
    resolution c lit cl2 lit2 = Some r.
Proof.
  unfold computeAllResolvents. rewrite computeAllResolvents_run_eq. simpl.
  rewrite in_flat_map. split.
  - intros ([[lit cl2] lit2] & Hc & Hin). apply in_candidates in Hc as [Hlt Hp].
    simpl in Hin. destruct (resolution c lit cl2 lit2) as [g|] eqn:Hg; [|contradiction].
    destruct Hin as [->|[]]. exists lit, cl2, lit2. auto.
  - intros (lit & cl2 & lit2 & Hlt & Hp & Hr). exists (lit, cl2, lit2).
    split; [now apply in_candidates|]. simpl. rewrite Hr. now left.
Qed.

Lemma kept_factor_truthy (c : Clause) (l : list (nat * nat)) :
  (forall p f, In p l -> factor c (fst p) (snd p) = Some f -> truth f = true) ->
  flat_map (kept_factor truth factor c) l = flat_map (factor_of factor c) l.
Proof.
  induction l as [|p l IH]; intros H; [reflexivity|].
  cbn [flat_map]. rewrite IH by (intros q f Hq; apply H; now right).
  f_equal. unfold kept_factor, factor_of.
  destruct (factor c (fst p) (snd p)) as [f|] eqn:E; [|reflexivity].
  now rewrite (H p f (or_introl eq_refl) E).
Qed.

Lemma factors_plus_misses (c : Clause) (l : list (nat * nat)) :
  List.length (flat_map (factor_of factor c) l) +
  List.length (filter (no_factor factor c) l) = List.length l.
Proof.
  induction l as [|p l IH]; [reflexivity|].
  cbn [flat_map filter]. rewrite length_app. unfold factor_of at 1, no_factor at 1.
  destruct (factor c (fst p) (snd p)); cbn [List.length]; lia.
Qed.

Lemma in_factor_of (c : Clause) (f : Clause) (n : nat) :
  In f (flat_map (factor_of factor c) (position_pairs n)) <->
  exists i j, i < j < n /\ factor c i j = Some f.
Proof.
  rewrite in_flat_map. split.
  - intros ([i j] & Hp & Hin). apply in_position_pairs in Hp.
    unfold factor_of in Hin. cbn [fst snd] in Hin.
    destruct (factor c i j) as [g|] eqn:Hg; [|contradiction].
    destruct Hin as [->|[]]. eauto.
  - intros (i & j & Hij & Hf). exists (i, j). split; [now apply in_position_pairs|].
    unfold factor_of. cbn [fst snd]. rewrite Hf. now left.
Qed.

End InferenceFacts.

(** ** Printing and reading back *)

Section LexingFacts.

Import Terms Lexer Literals Syntax.
Local Open Scope string_scope.

Lemma append_assoc (a b c : string) : (a ++ b) ++ c = a ++ (b ++ c).
Proof. induction a as [|x a IH]; simpl; [reflexivity | now rewrite IH]. Qed.

Lemma append_nil_r (a : string) : a ++ "" = a.
Proof. induction a as [|x a IH]; simpl; [reflexivity | now rewrite IH]. Qed.

Lemma isLower_not_upper (c : ascii) : isLower c = true -> isUpper c = false.
Proof.
  unfold isLower, isUpper, between. rewrite andb_true_iff, andb_false_iff, !Nat.leb_le, !Nat.leb_gt.
  lia.
Qed.

Lemma isLower_ident (c : ascii) : isLower c = true -> isIdentChar c = true.
Proof. unfold isIdentChar. intros ->. now rewrite orb_true_r. Qed.

Lemma isUpper_ident (c : ascii) : isUpper c = true -> isIdentChar c = true.
Proof. unfold isIdentChar. now intros ->. Qed.

(** Identifier characters extend the word being read. *)
Lemma scan_word (k : TokenKind) (v w rest : string) :
  allIdent v = true ->
  scan (Some (k, w)) (v ++ rest) = scan (Some (k, w ++ v)) rest.
Proof.
  revert w. induction v as [|c v IH]; intros w; simpl.
  - now rewrite append_nil_r.
  - rewrite andb_true_iff. intros [Hc Hv]. rewrite Hc, IH by assumption.
    now rewrite append_assoc.
Qed.

(** A delimiter closes it. *)
Lemma scan_flush (k : TokenKind) (w rest : string) :
  delimited rest = true ->
  scan (Some (k, w)) rest = Tok k w :: scan None rest.
Proof.
  destruct rest as [|c rest]; simpl; [reflexivity|].
  rewrite negb_true_iff. intros ->. reflexivity.
Qed.

Lemma scan_lower (w rest : string) :
  isLowerWord w = true -> delimited rest = true ->
  scan None (w ++ rest) = Tok IdentLower w :: scan None rest.
Proof.
  destruct w as [|c w]; simpl; [discriminate|].
  rewrite andb_true_iff. intros [Hc Hw] Hrest.
  rewrite (isLower_ident c Hc), (isLower_not_upper c Hc), Hc.
  rewrite scan_word by assumption. now apply scan_flush.
Qed.

Lemma scan_upper (w rest : string) :
  isUpperWord w = true -> delimited rest = true ->
  scan None (w ++ rest) = Tok IdentUpper w :: scan None rest.
Proof.
  destruct w as [|c w]; simpl; [discriminate|].
  rewrite andb_true_iff. intros [Hc Hw] Hrest.
  rewrite (isUpper_ident c Hc), Hc.
  rewrite scan_word by assumption. now apply scan_flush.
Qed.

(** Texts joined by a one-character separator scan to the joined tokens. *)
Lemma scans_to_concat (c : ascii) (sep : Token) (ss : list string) (tks : list (list Token)) :
  isIdentChar c = false ->
  (forall rest, scan None (String c rest) = sep :: scan None rest) ->
  Forall2 scans_to ss tks ->
  scans_to (String.concat (String c "") ss) (join_tokens sep tks).
Proof.
  intros Hc Hsep H. induction H as [|s tk ss tks Hs H IH]; intros rest Hrest.
  - reflexivity.
  - destruct H as [|s' tk' ss tks Hs' H].
    + simpl. now apply Hs.
    + change (String.concat (String c "") (s :: s' :: ss))
        with (s ++ String c (String.concat (String c "") (s' :: ss))).
      change (join_tokens sep (tk :: tk' :: tks))
        with (tk ++ sep :: join_tokens sep (tk' :: tks))%list.
      rewrite append_assoc. rewrite Hs by (simpl; now rewrite Hc).
      cbn [append]. rewrite Hsep, IH by assumption.
      now rewrite <- app_assoc.
Qed.

Lemma term2String_app (f : string) (a : term) (args : list term) :
  term2String (Fun f (a :: args)) =
    f ++ "(" ++ String.concat "," (map term2String (a :: args)) ++ ")".
Proof. reflexivity. Qed.

Lemma termTokens_app (f : string) (a : term) (args : list term) :
  termTokens (Fun f (a :: args)) =
    (Tok IdentLower f :: Tok OpenPar "(" ::
     join_tokens (Tok Comma ",") (map termTokens (a :: args)) ++ [Tok ClosePar ")"])%list.
Proof. reflexivity. Qed.

Lemma term2String_scans (t : term) :
  wf_term t = true -> scans_to (term2String t) (termTokens t).
Proof.
  induction t as [x|f args IH] using term_nested_ind.
  - intros Hx rest Hrest. now apply scan_upper.
  - cbn [wf_term]. rewrite andb_true_iff. intros [Hf Hargs].
    assert (Hall : Forall2 scans_to (map term2String args) (map termTokens args)).
    { clear Hf. induction IH as [|a args Ha _ IHargs]; simpl in *; constructor.
      - apply Ha. now apply andb_true_iff in Hargs.
      - apply IHargs. now apply andb_true_iff in Hargs. }
    destruct args as [|a args]; intros rest Hrest.
    + now apply scan_lower.
    + rewrite term2String_app, termTokens_app.
      rewrite !append_assoc. rewrite scan_lower by (assumption || reflexivity).
      cbn [append]. change (scan None (String "(" ?s)) with (Tok OpenPar "(" :: scan None s).
      assert (Hj := scans_to_concat "," (Tok Comma ",") _ _ eq_refl (fun _ => eq_refl) Hall).
      rewrite Hj by reflexivity.
      change (scan None (String ")" rest)) with (Tok ClosePar ")" :: scan None rest).
      cbn [app]. now rewrite <- app_assoc.
Qed.

End LexingFacts.

Section ParsingFacts.

Import Terms Lexer Literals Syntax.
Local Open Scope string_scope.
Local Open Scope nat_scope.
Local Open Scope list_scope.

Lemma kind_eqb_eq (k1 k2 : TokenKind) : kind_eqb k1 k2 = true <-> k1 = k2.
Proof. destruct k1, k2; simpl; split; congruence. Qed.

Lemma TestTok_next (ks : list TokenKind) (lex : lexer) :
  TestTok ks lex = (Ok (existsb (kind_eqb (next_kind lex)) ks), lex).
Proof. destruct lex; reflexivity. Qed.

Lemma TestTok_other (ks : list TokenKind) (lex : lexer) :
  ~ In (next_kind lex) ks -> TestTok ks lex = (Ok false, lex).
Proof.
  intros H. rewrite TestTok_next. f_equal. f_equal.
  destruct (existsb _ ks) eqn:E; [|reflexivity].
  apply existsb_exists in E as (k & Hk & E). apply kind_eqb_eq in E. congruence.
Qed.

Lemma parseTermList_fuel_tokens (args : list term) :
  Forall parses_term args -> args <> [] ->
  forall fuel rest,
    2 * List.length (join_tokens (Tok Comma ",") (map termTokens args)) + 1 <= fuel ->
    next_kind rest <> OpenPar -> next_kind rest <> Comma ->
    parseTermList_fuel fuel (join_tokens (Tok Comma ",") (map termTokens args) ++ rest)
      = (Ok args, rest).
Proof.
  induction 1 as [|a args Ha Hargs IH]; [congruence|]. intros _ fuel rest Hfuel Hp Hc.
  destruct fuel as [|fuel]; [lia|].
  destruct args as [|b args].
  - cbn [map join_tokens] in *. cbn [parseTermList_fuel]. unfold bind at 1.
    rewrite Ha by (assumption || lia). unfold bind at 1.
    rewrite TestTok_other by (simpl; intuition congruence). reflexivity.
  - change (join_tokens (Tok Comma ",") (map termTokens (a :: b :: args)))
      with (termTokens a ++ Tok Comma "," :: join_tokens (Tok Comma ",") (map termTokens (b :: args))) in *.
    rewrite length_app in Hfuel. cbn [List.length] in Hfuel.
    rewrite <- app_assoc. cbn [app parseTermList_fuel]. unfold bind at 1.
    rewrite Ha by (simpl; congruence || lia).
    cbn. unfold bind at 1.
    rewrite IH by (congruence || assumption || lia). reflexivity.
Qed.

Lemma parseTerm_fuel_tokens (t : term) : parses_term t.
Proof.
  induction t as [x|f args IH] using term_nested_ind; intros fuel rest Hfuel Hrest.
  - destruct fuel as [|fuel]; [simpl in Hfuel; lia|]. reflexivity.
  - destruct args as [|a args].
    + destruct fuel as [|fuel]; [simpl in Hfuel; lia|].
      cbn. unfold bind at 1. rewrite TestTok_other by (simpl; intuition congruence).
      reflexivity.
    + rewrite termTokens_app in *. cbn [List.length] in Hfuel. rewrite length_app in Hfuel.
      destruct fuel as [|fuel]; [lia|].
      cbn [app parseTerm_fuel]. rewrite <- app_assoc.
      set (toks := join_tokens (Tok Comma ",") (map termTokens (a :: args))) in *.
      cbn [List.length] in Hfuel.
      cbn. unfold bind at 1.
      rewrite (parseTermList_fuel_tokens (a :: args) IH)
        by first [discriminate | subst toks; lia | (cbn; discriminate)].
      reflexivity.
Qed.

Lemma parseTerm_tokens (t : term) (rest : lexer) :
  next_kind rest <> OpenPar -> parseTerm (termTokens t ++ rest) = (Ok t, rest).
Proof.
  intros H. unfold parseTerm. apply parseTerm_fuel_tokens; [|assumption].
  rewrite length_app. lia.
Qed.

End ParsingFacts.

Section LiteralSyntaxFacts.

Import Terms Lexer Literals Syntax.
Local Open Scope string_scope.
Local Open Scope nat_scope.
Local Open Scope list_scope.

Lemma isLowerWord_eqb (f g : string) :
  isLowerWord f = true -> isLowerWord g = false -> String.eqb f g = false.
Proof. intros Hf Hg. apply String.eqb_neq. congruence. Qed.

Lemma isUpperWord_not_lower (x : string) : isUpperWord x = true -> isLowerWord x = false.
Proof.
  destruct x as [|c x]; simpl; [reflexivity|]. rewrite andb_true_iff. intros [Hc _].
  destruct (isLower c) eqn:E; [|reflexivity].
  apply isLower_not_upper in E. congruence.
Qed.

Lemma literalTokens_plain (neg : bool) (f : string) (args : list term) :
  String.eqb f "=" = false ->
  literalTokens (mkLiteral neg (Fun f args)) =
    (if neg then [Tok Negation "~"] else []) ++ termTokens (Fun f args).
Proof.
  intros H. unfold literalTokens. cbn [atom negative].
  destruct args as [|a [|b [|c r]]]; try reflexivity. now rewrite H.
Qed.

Lemma repr_scans (l : Literal) :
  wf_literal l = true ->
  exists s, repr l = Ok s /\ scans_to s (literalTokens l).
Proof.
  destruct l as [neg [x|f args]]; unfold wf_literal; cbn [atom]; [discriminate|].
  destruct (String.eqb f "=") eqn:Hf.
  - apply String.eqb_eq in Hf. subst f.
    destruct args as [|lhs [|rhs [|c r]]]; try discriminate.
    rewrite andb_true_iff. intros [Hl Hr].
    exists (term2String lhs ++ (if neg then "!=" else "=") ++ term2String rhs)%string.
    split; [reflexivity|]. intros rest Hrest.
    unfold literalTokens. cbn [atom negative String.eqb Ascii.eqb Bool.eqb].
    rewrite !append_assoc.
    rewrite (term2String_scans lhs Hl) by now destruct neg.
    rewrite <- app_assoc. f_equal.
    destruct neg.
    + change (scan None ("!=" ++ ?s)%string) with (Tok NotEqualSign "!=" :: scan None s).
      cbn [app]. f_equal. now apply term2String_scans.
    + change (scan None ("=" ++ ?s)%string) with (Tok EqualSign "=" :: scan None s).
      cbn [app]. f_equal. now apply term2String_scans.
  - intros Hwf. rewrite literalTokens_plain by assumption.
    exists (if neg then ("~" ++ term2String (Fun f args))%string else term2String (Fun f args)).
    split.
    + unfold repr, isEquational. cbn [atom termFunc bindr isNegative negative].
      rewrite Hf. now destruct neg.
    + intros rest Hrest. destruct neg.
      * rewrite append_assoc.
        change (scan None ("~" ++ ?s)%string) with (Tok Negation "~" :: scan None s).
        cbn [app]. f_equal. now apply term2String_scans.
      * now apply term2String_scans.
Qed.

Lemma next_kind_termTokens (t : term) (rest : lexer) :
  next_kind (termTokens t ++ rest) =
    match t with Var _ => IdentUpper | Fun _ _ => IdentLower end.
Proof. destruct t as [x|f [|a args]]; reflexivity. Qed.

Lemma LookLit_termTokens (t : term) (rest : lexer) :
  LookLit (termTokens t ++ rest) = (Ok (head_name t), termTokens t ++ rest).
Proof. destruct t as [x|f [|a args]]; reflexivity. Qed.

Lemma parseAtom_plain (t : term) (rest : lexer) :
  ~ In (next_kind rest) [OpenPar; EqualSign; NotEqualSign] ->
  parseAtom (termTokens t ++ rest) = (Ok t, rest).
Proof.
  intros H. unfold parseAtom.
  erewrite bind_ok by (apply parseTerm_tokens; simpl in H; intuition congruence).
  erewrite bind_ok by (apply TestTok_other; simpl in *; intuition congruence).
  reflexivity.
Qed.

Lemma parseAtom_equation (lhs rhs : term) (op : Token) (rest : lexer) :
  In (type op) [EqualSign; NotEqualSign] ->
  next_kind rest <> OpenPar ->
  parseAtom (termTokens lhs ++ op :: termTokens rhs ++ rest)
    = (Ok (Fun (literal op) [lhs; rhs]), rest).
Proof.
  intros Hop H. unfold parseAtom.
  erewrite bind_ok
    by (apply parseTerm_tokens; simpl in *; intros E; rewrite E in Hop; intuition discriminate).
  assert (E : existsb (kind_eqb (type op)) [EqualSign; NotEqualSign] = true).
  { apply existsb_exists. exists (type op). split; [assumption | now apply kind_eqb_eq]. }
  unfold bind at 1. rewrite TestTok_next. cbn [next_kind]. rewrite E.
  unfold bind at 1. cbn [Next].
  erewrite bind_ok by (apply parseTerm_tokens; assumption).
  reflexivity.
Qed.

End LiteralSyntaxFacts.

Section LiteralListFacts.

Import Terms Lexer Literals Syntax.
Local Open Scope string_scope.
Local Open Scope nat_scope.
Local Open Scope list_scope.

Lemma wf_term_head (t : term) :
  wf_term t = true -> String.eqb (head_name t) "$false" = false.
Proof.
  destruct t as [x|f args]; cbn [wf_term head_name].
  - intros Hx. apply String.eqb_neq. intros ->. discriminate.
  - rewrite andb_true_iff. intros [Hf _]. apply String.eqb_neq. intros ->. discriminate.
Qed.

Lemma parseLiteral_tokens (l : Literal) (rest : lexer) :
  wf_literal l = true ->
  ~ In (next_kind rest) [OpenPar; EqualSign; NotEqualSign] ->
  parseLiteral (literalTokens l ++ rest) = (Ok l, rest).
Proof.
  destruct l as [neg [x|f args]]; unfold wf_literal; cbn [atom]; [discriminate|].
  intros Hwf Hrest. unfold parseLiteral.
  destruct (String.eqb f "=") eqn:Hf.
  - apply String.eqb_eq in Hf. subst f.
    destruct args as [|lhs [|rhs [|c r]]]; try discriminate.
    unfold literalTokens. cbn [atom negative String.eqb Ascii.eqb Bool.eqb].
    rewrite <- app_assoc. cbn [app].
    erewrite bind_ok
      by (apply TestTok_other; rewrite next_kind_termTokens; destruct lhs; simpl; intuition discriminate).
    erewrite bind_ok by reflexivity.
    erewrite bind_ok
      by (apply parseAtom_equation; [destruct neg; simpl; auto | simpl in Hrest; intuition congruence]).
    now destruct neg.
  - rewrite literalTokens_plain by assumption.
    assert (Hneq : String.eqb f "!=" = false).
    { cbn [wf_term] in Hwf. apply andb_true_iff in Hwf as [Hlow _].
      now apply isLowerWord_eqb. }
    destruct neg; cbn [app].
    + erewrite bind_ok by reflexivity. erewrite bind_ok by reflexivity.
      erewrite bind_ok by (apply parseAtom_plain; assumption).
      unfold lift, Literal_init. cbn [termFunc bindr]. now rewrite Hneq.
    + erewrite bind_ok by (apply TestTok_other; rewrite next_kind_termTokens; simpl; intuition discriminate).
      erewrite bind_ok by reflexivity.
      erewrite bind_ok by (apply parseAtom_plain; assumption).
      unfold lift, Literal_init. cbn [termFunc bindr]. now rewrite Hneq.
Qed.

Lemma LookLit_literalTokens (l : Literal) (rest : lexer) :
  wf_literal l = true ->
  exists w, LookLit (literalTokens l ++ rest) = (Ok w, literalTokens l ++ rest) /\
            String.eqb w "$false" = false.
Proof.
  destruct l as [neg [x|f args]]; unfold wf_literal; cbn [atom]; [discriminate|].
  destruct (String.eqb f "=") eqn:Hf.
  - apply String.eqb_eq in Hf. subst f.
    destruct args as [|lhs [|rhs [|c r]]]; try discriminate.
    rewrite andb_true_iff. intros [Hl _].
    unfold literalTokens. cbn [atom negative String.eqb Ascii.eqb Bool.eqb].
    rewrite <- app_assoc. exists (head_name lhs).
    split; [apply LookLit_termTokens | now apply wf_term_head].
  - intros Hwf. rewrite literalTokens_plain by assumption. destruct neg.
    + exists "~". split; reflexivity.
    + exists (head_name (Fun f args)).
      split; [apply LookLit_termTokens | now apply wf_term_head].
Qed.

Lemma parseLiteralItem_tokens (res : list Literal) (it : item) (rest : lexer) :
  wf_item it = true ->
  ~ In (next_kind rest) [OpenPar; EqualSign; NotEqualSign] ->
  parseLiteralItem res (itemTokens it ++ rest) = (Ok (res ++ literals_of [it]), rest).
Proof.
  destruct it as [l|]; cbn [wf_item itemTokens]; intros Hwf Hrest.
  - destruct (LookLit_literalTokens l rest Hwf) as (w & Hlook & Hw).
    unfold parseLiteralItem. erewrite bind_ok by apply Hlook. rewrite Hw.
    erewrite bind_ok by (apply parseLiteral_tokens; assumption).
    reflexivity.
  - cbn. now rewrite app_nil_r.
Qed.

Lemma next_kind_or_items (its : list item) :
  ~ In (next_kind (or_items its)) [OpenPar; EqualSign; NotEqualSign].
Proof. destruct its; simpl; intuition discriminate. Qed.

Lemma parseLiteralList_loop_or (fuel : nat) (res : list Literal) (lex : lexer) :
  parseLiteralList_loop (S fuel) res (Tok Or "|" :: lex) =
    bind (parseLiteralItem res) (parseLiteralList_loop fuel) lex.
Proof. reflexivity. Qed.

Lemma parseLiteralList_loop_tokens (its : list item) :
  forallb wf_item its = true ->
  forall res fuel,
    List.length its < fuel ->
    parseLiteralList_loop fuel res (or_items its) = (Ok (res ++ literals_of its), []).
Proof.
  induction its as [|it its IH]; intros Hwf res fuel Hfuel;
    (destruct fuel as [|fuel]; [simpl in Hfuel; lia|]).
  - cbn. now rewrite app_nil_r.
  - cbn [forallb] in Hwf. apply andb_true_iff in Hwf as [Hit Hits].
    cbn [or_items flat_map app]. rewrite parseLiteralList_loop_or.
    erewrite bind_ok by (apply parseLiteralItem_tokens; [assumption | apply next_kind_or_items]).
    fold (or_items its). rewrite IH by (assumption || (simpl in Hfuel; lia)).
    rewrite <- app_assoc. unfold literals_of. cbn [flat_map]. now rewrite app_nil_r.
Qed.

Lemma join_tokens_items (it : item) (its : list item) :
  join_tokens (Tok Or "|") (map itemTokens (it :: its)) = itemTokens it ++ or_items its.
Proof.
  revert it. induction its as [|it' its IH]; intros it.
  - cbn. now rewrite app_nil_r.
  - change (join_tokens (Tok Or "|") (map itemTokens (it :: it' :: its)))
      with (itemTokens it ++ Tok Or "|" :: join_tokens (Tok Or "|") (map itemTokens (it' :: its))).
    rewrite IH. reflexivity.
Qed.

Lemma or_items_length (its : list item) : List.length its <= List.length (or_items its).
Proof.
  induction its as [|it its IH]; simpl; [lia|]. rewrite length_app. lia.
Qed.

Lemma parseLiteralList_tokens (its : list item) :
  its <> [] -> forallb wf_item its = true ->
  parseLiteralList (join_tokens (Tok Or "|") (map itemTokens its)) = (Ok (literals_of its), []).
Proof.
  destruct its as [|it its]; [congruence|]. intros _ Hwf.
  cbn [forallb] in Hwf. apply andb_true_iff in Hwf as [Hit Hits].
  rewrite join_tokens_items. unfold parseLiteralList.
  erewrite bind_ok by (apply parseLiteralItem_tokens; [assumption | apply next_kind_or_items]).
  rewrite parseLiteralList_loop_tokens; [| assumption |].
  - unfold literals_of. cbn [flat_map app]. now rewrite app_nil_r.
  - pose proof (or_items_length its). lia.
Qed.

Lemma false_word_scans : scans_to "$false" [Tok DefFunctor "$false"].
Proof.
  intros rest Hrest.
  change (scan None ("$false" ++ rest)%string)
    with (scan (Some (DefFunctor, "$")) ("false" ++ rest)%string).
  rewrite scan_word by reflexivity. now apply scan_flush.
Qed.

Lemma map_item2String_scans (its : list item) :
  forallb wf_item its = true ->
  exists ss, map_item2String its = Ok ss /\ Forall2 scans_to ss (map itemTokens its).
Proof.
  induction its as [|it its IH]; cbn [forallb].
  - exists []. split; [reflexivity | constructor].
  - rewrite andb_true_iff. intros [Hit Hits].
    destruct (IH Hits) as (ss & Hss & Hall).
    assert (Hs : exists s, item2String it = Ok s /\ scans_to s (itemTokens it)).
    { destruct it as [l|]; [now apply repr_scans|].
      exists "$false". split; [reflexivity | apply false_word_scans]. }
    destruct Hs as (s & Hs & Hscan). exists (s :: ss). split.
    + cbn. now rewrite Hs, Hss.
    + now constructor.
Qed.

Lemma items2String_tokens (its : list item) :
  forallb wf_item its = true ->
  exists s, items2String its = Ok s /\
            Lexer s = join_tokens (Tok Or "|") (map itemTokens its).
Proof.
  intros Hwf. destruct (map_item2String_scans its Hwf) as (ss & Hss & Hall).
  exists (String.concat "|" ss). split.
  - unfold items2String. now rewrite Hss.
  - pose proof (scans_to_concat "|" (Tok Or "|") ss _ eq_refl (fun _ => eq_refl) Hall) as H.
    specialize (H ""%string eq_refl). rewrite append_nil_r in H.
    unfold Lexer. rewrite H. cbn. now rewrite app_nil_r.
Qed.

Lemma items_round_trip (its : list item) :
  its <> [] -> forallb wf_item its = true ->
  exists s, items2String its = Ok s /\
            parseLiteralList (Lexer s) = (Ok (literals_of its), []).
Proof.
  intros Hne Hwf. destruct (items2String_tokens its Hwf) as (s & Hs & Hlex).
  exists s. split; [assumption|]. rewrite Hlex. now apply parseLiteralList_tokens.
Qed.

Lemma map_repr_items (L : list Literal) : map_repr L = map_item2String (map Some L).
Proof. induction L as [|l L IH]; cbn; [reflexivity | now rewrite IH]. Qed.

Lemma literals_of_Some (L : list Literal) : literals_of (map Some L) = L.
Proof. induction L as [|l L IH]; cbn; [reflexivity | now f_equal]. Qed.

Lemma wf_item_Some (L : list Literal) :
  forallb wf_item (map Some L) = forallb wf_literal L.
Proof. induction L as [|l L IH]; cbn; [reflexivity | now rewrite IH]. Qed.

Lemma isEqual_refl (l : Literal) : isEqual l l = true.
Proof. unfold isEqual. now rewrite Bool.eqb_reflx, termEqual_refl. Qed.

Lemma literals_round_trip (L : list Literal) :
  forallb wf_literal L = true ->
  exists s, literalList2String L = Ok s /\ parseLiteralList (Lexer s) = (Ok L, []).
Proof.
  intros Hwf. destruct L as [|l L].
  - exists "$false". split; reflexivity.
  - destruct (items_round_trip (map Some (l :: L))) as (s & Hs & Hparse).
    + discriminate.
    + rewrite wf_item_Some. exact Hwf.
    + exists s. split.
      * unfold literalList2String. rewrite map_repr_items. exact Hs.
      * now rewrite literals_of_Some in Hparse.
Qed.

End LiteralListFacts.

(** * The properties of the specification *)

(** ** The clause queue *)

Section QueueProperties.

Import MinHeap.

(** C1 (the code breaks it).  Draining the queue does not reach the
    exhaustion signal: with a single node left, [getBest] pops that node and
    then stores into position 0 of the empty array, which raises
    [IndexError].  So after one [insert] into a fresh queue the first
    [getBest] fails instead of returning the node; after any [n >= 1]
    insertions the loop extracts [n - 1] nodes, in non-decreasing order of
    evaluation, and then fails on the last one. *)
Theorem getBest_raises_on_last_node (Clause Count : Type) :
  (forall (c : Clause) (k : Count) (e : Z),
      bind (insert c k e) (fun _ => getBest) init = (Raise IndexError, [])) /\
  (forall n : node Clause Count, getBest [n] = (Raise IndexError, [])) /\
  (forall (item : Clause * Count * Z) (items : list (Clause * Count * Z)),
      exists t rs,
        insert_all (item :: items) init = (Ok tt, t) /\
        List.length t = S (List.length items) /\
        drain (S (List.length t)) t = (rs, Raise IndexError, []) /\
        List.length rs = List.length items /\
        Sorted Z.le (map fst rs)).
Proof.
  split; [reflexivity|]. split; [reflexivity|]. intros item items.
  destruct (insert_all_heap Clause Count (item :: items) init (heap_ordered_nil _ _))
    as (t & Ht & Lt & Hheap).
  simpl in Lt. rewrite Nat.add_0_r in Lt.
  destruct (drain_raises Clause Count (List.length items) (S (List.length t)) t)
    as (rs & Hrs & Lrs); [assumption | lia |].
  exists t, rs. repeat split; try assumption.
  pose proof (drain_sorted Clause Count (S (List.length t)) t Hheap) as Hs.
  now rewrite Hrs in Hs.
Qed.

(** C2.  The parent position that [bubbleup] computes for a position
    [i > 0] is [floor((i-1)/2)], and this is the position it compares with
    and swaps with; inserting into a queue of size one puts the new node at
    position 1 and swaps it with the root exactly when its evaluation is
    strictly smaller. *)
Theorem bubbleup_parent_is_floor (Clause Count : Type) :
  (forall i, 0 < i -> parent i = (i - 1) / 2) /\
  (forall fuel i (t : tree Clause Count),
      0 < i ->
      bubbleup (S fuel) i t =
        bind (tree_get ((i - 1) / 2)) (fun p =>
        bind (tree_get i) (fun n =>
        if evaluation p <=? evaluation n then ret tt
        else bind (switch i ((i - 1) / 2)) (fun _ => bubbleup fuel ((i - 1) / 2)))) t) /\
  (forall (root : node Clause Count) c k e,
      insert c k e [root] =
        (Ok tt, if e <? evaluation root
                then [Node e c k; root]
                else [root; Node e c k])).
Proof.
  repeat split.
  - intros i _. apply parent_floor.
  - intros fuel i t Hi. now apply bubbleup_step.
  - intros root c k e. apply insert_singleton.
Qed.

Lemma bubbleup_parent_is_floor_witness :
  parent 1 = (1 - 1) / 2 /\
  insert 7%nat tt 3 [Node 5 4%nat tt] = (Ok tt, [Node 3 7%nat tt; Node 5 4%nat tt]).
Proof.
  split.
  - apply (proj1 (bubbleup_parent_is_floor nat unit) 1). reflexivity.
  - apply (proj2 (proj2 (bubbleup_parent_is_floor nat unit))).
Defined.

(** C8.  On an empty queue [getBest] returns the tuple
    [(None, None, True)] without raising and leaves the queue empty; every
    result of a successful extraction carries [False] in that place, so the
    signal cannot be mistaken for one. *)
Theorem getBest_empty_signal (Clause Count : Type) :
  @getBest Clause Count [] = (Ok (None, None, true), []) /\
  (forall (t t' : tree Clause Count) r,
      t <> [] -> getBest t = (Ok r, t') ->
      (exists c k, r = (Some c, Some k, false)) /\ r <> (None, None, true)).
Proof.
  split; [reflexivity|]. intros t t' r Ht H.
  destruct (getBest_valid Clause Count t t' r Ht H) as (c & k & ->).
  split; [eauto | discriminate].
Qed.

Lemma getBest_empty_signal_witness :
  (exists c k, (Some 4%nat, Some tt, false) = (Some c, Some k, false)) /\
  (Some 4%nat, Some tt, false) <> (@None nat, @None unit, true).
Proof.
  apply (proj2 (getBest_empty_signal nat unit)
           [Node 3 4%nat tt; Node 5 6%nat tt] [Node 5 6%nat tt]).
  - discriminate.
  - reflexivity.
Defined.

End QueueProperties.

(** ** Literals *)

Section LiteralProperties.

Import Terms Lexer Literals Syntax.
Local Open Scope string_scope.
Local Open Scope list_scope.

(** C3.  Constructing a literal from an atom headed by [!=] gives the atom
    headed by [=] with the same arguments in the same order and the
    opposite sign; any other head leaves atom and sign as they are; hence no
    literal that the constructor, the parser or [instantiate] returns has an
    atom headed by [!=]. *)
Theorem Literal_init_normalises :
  (forall args s,
      Literal_init (Fun "!=" args) s = Ok (mkLiteral (negb s) (Fun "=" args))) /\
  (forall f args s,
      f <> "!=" -> Literal_init (Fun f args) s = Ok (mkLiteral s (Fun f args))) /\
  (forall a s l, Literal_init a s = Ok l -> normalised l) /\
  (forall lex l lex', parseLiteral lex = (Ok l, lex') -> normalised l) /\
  (forall lex L lex', parseLiteralList lex = (Ok L, lex') -> Forall normalised L) /\
  (forall l subst l', instantiate l subst = Ok l' -> normalised l').
Proof.
  repeat apply conj.
  - reflexivity.
  - intros f args s Hf. unfold Literal_init; cbn [termFunc termArgs bindr].
    destruct (String.eqb_spec f "!="); [contradiction | reflexivity].
  - intros a s l. apply Literal_init_head.
  - intros lex l lex'. apply parseLiteral_normalised.
  - intros lex L lex'. apply parseLiteralList_normalised.
  - intros l subst l'. apply Literal_init_head.
Qed.

Lemma Literal_init_normalises_witness :
  Literal_init (Fun "=" [Fun "a" []; Fun "b" []]) true
    = Ok (mkLiteral true (Fun "=" [Fun "a" []; Fun "b" []])) /\
  normalised (mkLiteral true (Fun "=" [Fun "a" []; Fun "b" []])).
Proof.
  split.
  - apply (proj1 (proj2 Literal_init_normalises)). discriminate.
  - apply (proj1 (proj2 (proj2 Literal_init_normalises))
             (Fun "!=" [Fun "a" []; Fun "b" []]) false).
    reflexivity.
Defined.

(** C6.  [~a=b] and [a!=b] parse to literals that are [isEqual], and so do
    [~a!=b] and [a=b]. *)
Theorem parse_normalises_inequations :
  exists l1 l2 l3 l4,
    parseLiteral (Lexer "~a=b") = (Ok l1, []) /\
    parseLiteral (Lexer "a!=b") = (Ok l2, []) /\
    isEqual l1 l2 = true /\ isEqual l2 l1 = true /\
    parseLiteral (Lexer "~a!=b") = (Ok l3, []) /\
    parseLiteral (Lexer "a=b") = (Ok l4, []) /\
    isEqual l3 l4 = true /\ isEqual l4 l3 = true.
Proof.
  exists (mkLiteral true (Fun "=" [Fun "a" []; Fun "b" []])),
         (mkLiteral true (Fun "=" [Fun "a" []; Fun "b" []])),
         (mkLiteral false (Fun "=" [Fun "a" []; Fun "b" []])),
         (mkLiteral false (Fun "=" [Fun "a" []; Fun "b" []])).
  repeat split; reflexivity.
Qed.

(** C7.  [isOpposite] is symmetric, and no literal is opposite to itself. *)
Theorem isOpposite_symmetric_irreflexive :
  (forall a b, isOpposite a b = isOpposite b a) /\
  (forall a, isOpposite a a = false).
Proof.
  split.
  - intros a b. unfold isOpposite. rewrite (termEqual_sym (atom a)).
    f_equal. f_equal. destruct (isNegative a), (isNegative b); reflexivity.
  - intros a. unfold isOpposite. now rewrite Bool.eqb_reflx.
Qed.

(** C9.  [isEqual] holds exactly when the signs agree and the atoms are the
    same term, arguments in the same order; in particular the two
    orientations of an equation between different terms are not
    [isEqual]. *)
Theorem isEqual_structural_not_commutative :
  (exists a b s,
      isEqual (mkLiteral s (Fun "=" [a; b])) (mkLiteral s (Fun "=" [b; a])) = false) /\
  (forall a b s,
      a <> b ->
      isEqual (mkLiteral s (Fun "=" [a; b])) (mkLiteral s (Fun "=" [b; a])) = false) /\
  (forall l1 l2,
      isEqual l1 l2 = true <-> negative l1 = negative l2 /\ atom l1 = atom l2).
Proof.
  assert (H : forall l1 l2,
             isEqual l1 l2 = true <-> negative l1 = negative l2 /\ atom l1 = atom l2).
  { intros l1 l2. unfold isEqual, isNegative.
    rewrite andb_true_iff, Bool.eqb_true_iff, termEqual_true_iff. tauto. }
  split; [|split].
  - exists (Fun "a" []), (Fun "b" []), false. reflexivity.
  - intros a b s Hab. apply not_true_is_false. intros E.
    apply H in E as [_ E]. cbn in E. congruence.
  - exact H.
Qed.

Lemma isEqual_structural_not_commutative_witness :
  isEqual (mkLiteral true (Fun "=" [Var "X"; Fun "a" []]))
          (mkLiteral true (Fun "=" [Fun "a" []; Var "X"])) = false.
Proof.
  apply (proj1 (proj2 isEqual_structural_not_commutative)). discriminate.
Defined.

(** C5, as it fails: the literal whose atom is the constant [$false] is
    printed as the word [$false], which the list parser drops, so the list
    read back is empty. *)
Lemma round_trip_drops_false_atom :
  exists l s L',
    Literal_init (Fun "$false" []) false = Ok l /\
    literalList2String [l] = Ok s /\
    parseLiteralList (Lexer s) = (Ok L', []) /\
    List.length L' <> List.length [l].
Proof.
  exists (mkLiteral false (Fun "$false" [])), "$false", [].
  repeat split. discriminate.
Qed.

(** C5, amended.  A list of well-formed literals (predicate and function
    symbols that are lower-case identifiers, variables that are upper-case
    identifiers, equations with two sides) is printed to a text that parses
    back to the same list: same length, each position [isEqual].  The text
    [$false] parses to the empty list, the empty list is printed as
    [$false], and in a [|]-separated list of such literals every entry
    [$false] contributes no literal. *)
Theorem literal_list_round_trip :
  (forall L,
      forallb wf_literal L = true ->
      exists s L',
        literalList2String L = Ok s /\
        parseLiteralList (Lexer s) = (Ok L', []) /\
        List.length L' = List.length L /\
        Forall2 (fun l' l => isEqual l' l = true) L' L) /\
  parseLiteralList (Lexer "$false") = (Ok [], []) /\
  literalList2String [] = Ok "$false" /\
  (forall its,
      its <> [] -> forallb wf_item its = true ->
      exists s,
        items2String its = Ok s /\
        parseLiteralList (Lexer s) = (Ok (literals_of its), [])).
Proof.
  repeat split.
  - intros L Hwf. destruct (literals_round_trip L Hwf) as (s & Hs & Hparse).
    exists s, L. repeat split; try assumption.
    clear. induction L; constructor; [apply isEqual_refl | assumption].
  - intros its Hne Hwf. now apply items_round_trip.
Qed.

Lemma literal_list_round_trip_witness :
  exists s L',
    literalList2String
      [mkLiteral false (Fun "p" [Var "X"]);
       mkLiteral true (Fun "q" [Fun "f" [Var "X"; Fun "a" []]; Fun "b" []]);
       mkLiteral true (Fun "=" [Fun "a" []; Fun "b" []])] = Ok s /\
    parseLiteralList (Lexer s) = (Ok L', []) /\
    List.length L' = 3%nat /\
    Forall2 (fun l' l => isEqual l' l = true) L'
      [mkLiteral false (Fun "p" [Var "X"]);
       mkLiteral true (Fun "q" [Fun "f" [Var "X"; Fun "a" []]; Fun "b" []]);
       mkLiteral true (Fun "=" [Fun "a" []; Fun "b" []])].
Proof.
  apply (proj1 literal_list_round_trip). reflexivity.
Defined.

End LiteralProperties.

(** ** The enumeration of resolvents and factors *)

Section InferenceProperties.

Import ResControl Samples.
Local Open Scope nat_scope.

(** C4.  [computeAllResolvents] calls the resolution rule on the candidate
    pairs, which number the sum of the [k_i], and returns as many results as
    there are candidates minus those on which the rule returns [None].
    [computeAllFactors] calls the factoring rule on exactly the pairs
    [(i, j)] with [i < j < n], each once, [n(n-1)/2] in all.  A factor is a
    clause made by merging two literals of a clause: it has a literal, and
    its truth value is true.  For a factoring rule that returns such
    clauses [computeAllFactors] returns, in the order of the calls, every
    factor the rule produces: as many as there are pairs, minus those
    without a factor. *)
Theorem enumeration_counts
    (Clause ClauseSet Lit : Type)
    (len : Clause -> nat) (getLiteral : Clause -> nat -> Lit)
    (truth : Clause -> bool)
    (getResolutionLiterals : ClauseSet -> Lit -> list (Clause * nat))
    (resolution : Clause -> nat -> Clause -> nat -> option Clause)
    (factor : Clause -> nat -> nat -> option Clause)
    (c : Clause) (cs : ClauseSet) :
  let candidates := candidates len getLiteral getResolutionLiterals c cs in
  let sum_k :=
    list_sum (map (partner_count getLiteral getResolutionLiterals c cs)
                (xrange 0 (len c))) in
  let misses := List.length (filter (no_resolvent resolution c) candidates) in
  let calls := fst (computeAllFactors_run len truth factor c) in
  fst (computeAllResolvents_run len getLiteral getResolutionLiterals resolution c cs)
    = candidates /\
  List.length candidates = sum_k /\
  List.length (computeAllResolvents len getLiteral getResolutionLiterals resolution c cs)
    = sum_k - misses /\
  misses <= sum_k /\
  (forall i j, In (i, j) calls <-> i < j < len c) /\
  NoDup calls /\
  List.length calls = len c * (len c - 1) / 2 /\
  ((forall i j f, i < j < len c -> factor c i j = Some f -> truth f = true) ->
   computeAllFactors len truth factor c = flat_map (factor_of factor c) calls /\
   (forall f, In f (computeAllFactors len truth factor c) <->
              exists i j, i < j < len c /\ factor c i j = Some f) /\
   List.length (computeAllFactors len truth factor c) =
     len c * (len c - 1) / 2 - List.length (filter (no_factor factor c) calls)).
Proof.
  cbv zeta. unfold computeAllResolvents, computeAllFactors.
  rewrite computeAllResolvents_run_eq, computeAllFactors_run_eq. cbn [fst snd].
  pose proof (resolvents_plus_misses _ resolution c
                (candidates len getLiteral getResolutionLiterals c cs)) as Hsum.
  rewrite (candidates_length _ _ _ len getLiteral getResolutionLiterals c cs) in Hsum.
  repeat apply conj.
  - reflexivity.
  - apply candidates_length.
  - lia.
  - lia.
  - intros i j. apply in_position_pairs.
  - apply NoDup_position_pairs.
  - apply position_pairs_length.
  - intros Ht.
    assert (E : flat_map (kept_factor truth factor c) (position_pairs (len c)) =
                flat_map (factor_of factor c) (position_pairs (len c))).
    { apply kept_factor_truthy. intros [i j] f Hp Hf.
      apply in_position_pairs in Hp. exact (Ht i j f Hp Hf). }
    rewrite E. split; [reflexivity|]. split.
    + intros f. apply in_factor_of.
    + pose proof (factors_plus_misses _ factor c (position_pairs (len c))) as Hf.
      rewrite position_pairs_length in Hf. lia.
Qed.

Lemma enumeration_counts_witness :
  computeAllFactors clause_len clause_truth factor_drop [1; 2; 3] =
    flat_map (factor_of factor_drop [1; 2; 3])
      (fst (computeAllFactors_run clause_len clause_truth factor_drop [1; 2; 3])) /\
  List.length (computeAllFactors clause_len clause_truth factor_drop [1; 2; 3]) = 3.
Proof.
  pose proof (enumeration_counts clause unit nat clause_len clause_lit clause_truth
                unit_partners resolve_unit factor_drop [1; 2; 3] tt) as H.
  cbv zeta in H. destruct H as (_ & _ & _ & _ & _ & _ & _ & H).
  assert (Ht : forall i j f, i < j < clause_len [1; 2; 3] ->
                 factor_drop [1; 2; 3] i j = Some f -> clause_truth f = true).
  { intros i j f Hij Hf. unfold factor_drop in Hf. injection Hf as <-.
    destruct j as [|[|[|j]]]; [reflexivity | reflexivity | reflexivity |].
    simpl in Hij. lia. }
  destruct (H Ht) as (H1 & _ & H3). split; [exact H1|].
  rewrite H3. reflexivity.
Defined.

(** C10.  [computeAllResolvents] keeps every result of the resolution rule
    that is not [None], whatever its truth value; [computeAllFactors] keeps
    a result of the factoring rule only if it is not [None] and its truth
    value is true, so a false one is dropped.  With the empty clause as the
    false result: it is collected as a resolvent and dropped as a factor. *)
Theorem none_test_versus_truth_test
    (Clause ClauseSet Lit : Type)
    (len : Clause -> nat) (getLiteral : Clause -> nat -> Lit)
    (truth : Clause -> bool)
    (getResolutionLiterals : ClauseSet -> Lit -> list (Clause * nat))
    (resolution : Clause -> nat -> Clause -> nat -> option Clause)
    (factor : Clause -> nat -> nat -> option Clause)
    (c : Clause) (cs : ClauseSet) :
  (forall r,
      In r (computeAllResolvents len getLiteral getResolutionLiterals resolution c cs) <->
      exists lit cl2 lit2,
        lit < len c /\ In (cl2, lit2) (getResolutionLiterals cs (getLiteral c lit)) /\
        resolution c lit cl2 lit2 = Some r) /\
  (forall f,
      In f (computeAllFactors len truth factor c) <->
      exists i j, i < j < len c /\ factor c i j = Some f /\ truth f = true) /\
  (forall f, truth f = false -> ~ In f (computeAllFactors len truth factor c)) /\
  computeAllResolvents clause_len clause_lit unit_partners resolve_unit [7] tt = [[]] /\
  computeAllFactors clause_len clause_truth factor_empty [1; 2] = [].
Proof.
  repeat apply conj.
  - intros r. apply in_computeAllResolvents.
  - intros f. apply in_computeAllFactors.
  - intros f Hf Hin. apply in_computeAllFactors in Hin as (i & j & _ & _ & Ht). congruence.
  - reflexivity.
  - reflexivity.
Qed.

Lemma none_test_versus_truth_test_witness :
  ~ In [] (computeAllFactors clause_len clause_truth factor_drop [1; 2; 3]).
Proof.
  apply (proj1 (proj2 (proj2
           (none_test_versus_truth_test clause unit nat clause_len clause_lit clause_truth
              unit_partners resolve_unit factor_drop [1; 2; 3] tt)))).
  reflexivity.
Defined.

End InferenceProperties.

(** * Further properties of the code *)

(** ** The clause queue: contents *)

Section HeapContents.

Import MinHeap.
Variables (Clause Count : Type).

Lemma update_replaces {A} (l : list A) (k : nat) (x z : A) :
  nth_error l k = Some x -> Permutation (z :: l) (x :: PyList.update l k z).
Proof.
  revert k. induction l as [|a l IH]; intros [|k] H; simpl in *; try discriminate.
  - inversion H; subst. apply perm_swap.
  - specialize (IH k H).
    transitivity (a :: z :: l); [apply perm_swap|].
    transitivity (a :: x :: PyList.update l k z); [now constructor | apply perm_swap].
Qed.

Lemma getitem_nth_error {A} (l : list A) (i : Z) (x : A) :
  0 <= i < Z.of_nat (List.length l) ->
  PyList.getitem l i = Ok x -> nth_error l (Z.to_nat i) = Some x.
Proof.
  intros Hi H. unfold PyList.getitem in H. rewrite norm_index_in in H by assumption.
  destruct (nth_error l (Z.to_nat i)); [congruence | discriminate].
Qed.

Lemma switch_perm (t : tree Clause Count) (i j : Z) :
  0 <= i < Z.of_nat (List.length t) -> 0 <= j < Z.of_nat (List.length t) ->
  exists t', switch i j t = (Ok tt, t') /\ Permutation t t'.
Proof.
  intros Hi Hj. unfold switch.
  destruct (tree_get_in _ _ t i Hi) as [x Hx]. rewrite (bind_ok _ _ _ _ _ Hx).
  destruct (tree_get_in _ _ t j Hj) as [y Hy]. rewrite (bind_ok _ _ _ _ _ Hy).
  unfold tree_get in Hx, Hy. injection Hx as Hx. injection Hy as Hy.
  apply getitem_nth_error in Hx; [|assumption].
  apply getitem_nth_error in Hy; [|assumption].
  unfold bind, tree_set, PyList.setitem.
  rewrite norm_index_in by assumption.
  rewrite update_length. rewrite norm_index_in by assumption.
  eexists. split; [reflexivity|].
  assert (Hy' : nth_error (PyList.update t (Z.to_nat i) y) (Z.to_nat j) = Some y).
  { destruct (Nat.eq_dec (Z.to_nat j) (Z.to_nat i)) as [E|E].
    - rewrite E. apply nth_error_update_same. lia.
    - now rewrite nth_error_update_other. }
  pose proof (update_replaces t (Z.to_nat i) x y Hx) as P1.
  pose proof (update_replaces _ (Z.to_nat j) y x Hy') as P2.
  apply (Permutation_cons_inv (a := y)).
  now transitivity (x :: PyList.update t (Z.to_nat i) y).
Qed.

Lemma bubbleup_perm (fuel : nat) :
  forall (node : Z) (t : tree Clause Count),
    0 <= node < Z.of_nat (List.length t) -> node < Z.of_nat fuel ->
    exists t', bubbleup fuel node t = (Ok tt, t') /\ Permutation t t'.
Proof.
  induction fuel as [|fuel IH]; intros node t Hnode Hfuel; [lia|].
  destruct (Z.eq_dec node 0) as [->|Hnz]; [exists t; split; reflexivity|].
  rewrite bubbleup_step by lia.
  destruct (parent_cases node) as [Hp _]; [lia|].
  destruct (tree_get_in _ _ t ((node - 1) / 2)) as [p Hget]; [lia|].
  rewrite (bind_ok _ _ _ _ _ Hget).
  destruct (tree_get_in _ _ t node Hnode) as [n Hn]. rewrite (bind_ok _ _ _ _ _ Hn).
  destruct (evaluation p <=? evaluation n); [exists t; split; reflexivity|].
  destruct (switch_perm t node ((node - 1) / 2)) as (t1 & Hs & P1); [lia | lia |].
  rewrite (bind_ok _ _ _ _ _ Hs).
  destruct (IH ((node - 1) / 2) t1) as (t2 & H2 & P2);
    [rewrite <- (Permutation_length P1); lia | lia |].
  exists t2. split; [assumption | now transitivity t1].
Qed.

Lemma bubbledown_perm (fuel : nat) :
  forall (node : Z) (t : tree Clause Count),
    0 <= node <= Z.of_nat (List.length t) ->
    Z.of_nat (List.length t) - node < Z.of_nat fuel ->
    exists t', bubbledown fuel node t = (Ok tt, t') /\ Permutation t t'.
Proof.
  induction fuel as [|fuel IH]; intros node t Hnode Hfuel; [lia|].
  rewrite bubbledown_step. cbv zeta.
  destruct (Z.gtb_spec (2 * node + 1) (Z.of_nat (List.length t) - 1)) as [Hl|Hl];
    [exists t; split; reflexivity|].
  destruct (tree_get_in _ _ t (2 * node + 1)) as [l Hgl]; [lia|].
  destruct (tree_get_in _ _ t node) as [n Hgn]; [lia|].
  destruct (Z.gtb_spec (2 * node + 1 + 1) (Z.of_nat (List.length t) - 1)) as [Hr|Hr].
  - rewrite (bind_ok _ _ _ _ _ Hgl), (bind_ok _ _ _ _ _ Hgn).
    destruct (evaluation l <? evaluation n); [|exists t; split; reflexivity].
    change (bind (tree_get (2 * node + 1)) (fun temp =>
            bind (tree_get node) (fun n0 =>
            bind (tree_set (2 * node + 1) n0) (fun _ => tree_set node temp))))
      with (@switch Clause Count (2 * node + 1) node).
    destruct (switch_perm t (2 * node + 1) node) as (t1 & Hs & P1); [lia | lia |].
    rewrite (bind_ok _ _ _ _ _ Hs). exists t1. split; [reflexivity | assumption].
  - destruct (tree_get_in _ _ t (2 * node + 1 + 1)) as [r Hgr]; [lia|].
    rewrite (bind_ok _ _ _ _ _ Hgl), (bind_ok _ _ _ _ _ Hgn).
    assert (Hlow : exists lower : bool,
               (if evaluation l <? evaluation n then ret true
                else bind (tree_get (2 * node + 1 + 1)) (fun r =>
                     bind (tree_get node) (fun n => ret (evaluation r <? evaluation n)))) t
               = (Ok lower, t)).
    { destruct (evaluation l <? evaluation n); [exists true; reflexivity|].
      rewrite (bind_ok _ _ _ _ _ Hgr), (bind_ok _ _ _ _ _ Hgn). eexists. reflexivity. }
    destruct Hlow as [lower Hlow]. rewrite (bind_ok _ _ _ _ _ Hlow).
    destruct lower; [|exists t; split; reflexivity].
    rewrite (bind_ok _ _ _ _ _ Hgl), (bind_ok _ _ _ _ _ Hgr).
    destruct (evaluation l <=? evaluation r).
    + destruct (switch_perm t node (2 * node + 1)) as (t1 & Hs & P1); [lia | lia |].
      rewrite (bind_ok _ _ _ _ _ Hs).
      destruct (IH (2 * node + 1) t1) as (t2 & H2 & P2);
        [rewrite <- (Permutation_length P1); lia
        | rewrite <- (Permutation_length P1); lia |].
      exists t2. split; [assumption | now transitivity t1].
    + destruct (switch_perm t node (2 * node + 1 + 1)) as (t1 & Hs & P1); [lia | lia |].
      rewrite (bind_ok _ _ _ _ _ Hs).
      destruct (IH (2 * node + 1 + 1) t1) as (t2 & H2 & P2);
        [rewrite <- (Permutation_length P1); lia
        | rewrite <- (Permutation_length P1); lia |].
      exists t2. split; [assumption | now transitivity t1].
Qed.

Lemma insert_perm (t : tree Clause Count) (c : Clause) (k : Count) (e : Z) :
  exists t', insert c k e t = (Ok tt, t') /\ Permutation (Node e c k :: t) t'.
Proof.
  unfold insert. cbv [bind tree_append tree_len].
  assert (L : List.length (t ++ [Node e c k]) = S (List.length t))
    by (rewrite length_app; simpl; lia).
  destruct (bubbleup_perm (Z.to_nat (Z.of_nat (List.length (t ++ [Node e c k]))))
              (Z.of_nat (List.length (t ++ [Node e c k])) - 1) (t ++ [Node e c k]))
    as (t' & H & P); [lia | lia |].
  exists t'. split; [assumption|].
  transitivity (t ++ [Node e c k]); [apply Permutation_cons_append | assumption].
Qed.

Lemma getBest_perm (x y : node Clause Count) (t : tree Clause Count) :
  exists t',
    getBest (x :: y :: t) = (Ok (Some (clause x), Some (count x), false), t') /\
    Permutation (y :: t) t'.
Proof.
  destruct (exists_last (l := y :: t)) as (l & z & E); [discriminate|].
  rewrite E. unfold getBest.
  rewrite (bind_ok get_tree _ (x :: l ++ [z]) (x :: l ++ [z]) (x :: l ++ [z]) eq_refl).
  rewrite !(bind_ok _ _ _ _ _ (tree_get_root _ _ x (l ++ [z]))).
  rewrite (bind_ok _ _ _ _ _ (tree_pop_snoc _ _ (x :: l) z)).
  rewrite (bind_ok _ _ _ _ _ (tree_set_root _ _ x z l)).
  unfold bind at 1, tree_len at 1.
  destruct (bubbledown_perm (S (Z.to_nat (Z.of_nat (List.length (z :: l))))) 0 (z :: l))
    as (t' & H & P); [simpl; lia | lia |].
  rewrite (bind_ok _ _ _ _ _ H). exists t'. split; [reflexivity|].
  transitivity (z :: l); [symmetry; apply Permutation_cons_append | assumption].
Qed.

End HeapContents.

Section HeapExtras.

Import MinHeap.

Lemma norm_index_out (len i : Z) :
  ~ (- len <= i < len) -> PyList.norm_index len i = None.
Proof.
  intros H. unfold PyList.norm_index.
  destruct (Z.ltb_spec i 0).
  - destruct (Z.ltb_spec (len + i) 0); [reflexivity | lia].
  - destruct (Z.ltb_spec i len); [lia | reflexivity].
Qed.

Lemma tree_get_out {Clause Count : Type} (t : tree Clause Count) (i : Z) :
  ~ (- Z.of_nat (List.length t) <= i < Z.of_nat (List.length t)) ->
  tree_get i t = (Raise IndexError, t).
Proof.
  intros H. unfold tree_get, PyList.getitem. now rewrite norm_index_out.
Qed.

Lemma tree_get_some_or_raise {Clause Count : Type} (t : tree Clause Count) (i : Z) :
  (exists x, tree_get i t = (Ok x, t)) \/ tree_get i t = (Raise IndexError, t).
Proof.
  unfold tree_get, PyList.getitem.
  destruct (PyList.norm_index _ i); [|now right].
  destruct (nth_error t n); [left; eauto | now right].
Qed.

(** X1.  [switch] exchanges the nodes at two positions of the array and
    leaves every other position as it is: the array is permuted, never
    partly updated.  With a position outside [-len, len) it raises
    [IndexError] before it has written anything. *)
Theorem switch_exchanges_or_fails (Clause Count : Type) (t : tree Clause Count) (i j : Z) :
  (0 <= i < Z.of_nat (List.length t) -> 0 <= j < Z.of_nat (List.length t) ->
   exists t',
     switch i j t = (Ok tt, t') /\
     PyList.getitem t' i = PyList.getitem t j /\
     PyList.getitem t' j = PyList.getitem t i /\
     (forall k, 0 <= k < Z.of_nat (List.length t) -> k <> i -> k <> j ->
                PyList.getitem t' k = PyList.getitem t k) /\
     Permutation t t') /\
  (~ (- Z.of_nat (List.length t) <= i < Z.of_nat (List.length t)) \/
   ~ (- Z.of_nat (List.length t) <= j < Z.of_nat (List.length t)) ->
   switch i j t = (Raise IndexError, t)).
Proof.
  split.
  - intros Hi Hj. destruct (switch_perm _ _ t i j Hi Hj) as (t' & H & P).
    exists t'. split; [assumption|].
    assert (L : List.length t' = List.length t) by (symmetry; now apply Permutation_length).
    unfold switch in H.
    destruct (tree_get_in _ _ t i Hi) as [x Hx]. rewrite (bind_ok _ _ _ _ _ Hx) in H.
    destruct (tree_get_in _ _ t j Hj) as [y Hy]. rewrite (bind_ok _ _ _ _ _ Hy) in H.
    unfold tree_get in Hx, Hy. injection Hx as Hx. injection Hy as Hy.
    unfold bind, tree_set, PyList.setitem in H.
    rewrite norm_index_in in H by assumption.
    rewrite update_length in H. rewrite norm_index_in in H by assumption.
    injection H as H. subst t'.
    assert (G : forall k, 0 <= k < Z.of_nat (List.length t) ->
              PyList.getitem (PyList.update (PyList.update t (Z.to_nat i) y) (Z.to_nat j) x) k =
              if k =? j then Ok x else if k =? i then Ok y else PyList.getitem t k).
    { intros k Hk. rewrite !getitem_nth by (rewrite ?L; assumption).
      destruct (Z.eqb_spec k j) as [->|Hkj].
      - rewrite nth_error_update_same by (rewrite update_length; lia). reflexivity.
      - rewrite nth_error_update_other by lia.
        destruct (Z.eqb_spec k i) as [->|Hki].
        + rewrite nth_error_update_same by lia. reflexivity.
        + rewrite nth_error_update_other by lia. reflexivity. }
    repeat split; try assumption.
    + rewrite G by assumption. destruct (Z.eqb_spec i j) as [->|]; [congruence|].
      rewrite Z.eqb_refl. congruence.
    + rewrite G by assumption. rewrite Z.eqb_refl. congruence.
    + intros k Hk Hki Hkj. rewrite G by assumption.
      destruct (Z.eqb_spec k j); [contradiction|]. destruct (Z.eqb_spec k i); [contradiction|].
      reflexivity.
  - intros H. unfold switch.
    destruct (tree_get_some_or_raise t i) as [[x Hx]|Hx].
    + rewrite (bind_ok _ _ _ _ _ Hx).
      destruct H as [H|H].
      * rewrite (tree_get_out t i H) in Hx. discriminate.
      * unfold bind. now rewrite (tree_get_out t j H).
    + unfold bind. now rewrite Hx.
Qed.

Lemma switch_exchanges_or_fails_witness :
  (exists t',
     switch 0 2 [Node 1 tt tt; Node 2 tt tt; Node 3 tt tt] = (Ok tt, t') /\
     PyList.getitem t' 0 = PyList.getitem [Node 1 tt tt; Node 2 tt tt; Node 3 tt tt] 2 /\
     PyList.getitem t' 2 = PyList.getitem [Node 1 tt tt; Node 2 tt tt; Node 3 tt tt] 0 /\
     (forall k, 0 <= k < 3 -> k <> 0 -> k <> 2 ->
                PyList.getitem t' k = PyList.getitem [Node 1 tt tt; Node 2 tt tt; Node 3 tt tt] k) /\
     Permutation [Node 1 tt tt; Node 2 tt tt; Node 3 tt tt] t') /\
  switch 0 3 [Node 1 tt tt; Node 2 tt tt; Node 3 tt tt]
    = (Raise IndexError, [Node 1 tt tt; Node 2 tt tt; Node 3 tt tt]).
Proof.
  split.
  - apply (proj1 (switch_exchanges_or_fails unit unit
                    [Node 1 tt tt; Node 2 tt tt; Node 3 tt tt] 0 2)); simpl; lia.
  - apply (proj2 (switch_exchanges_or_fails unit unit
                    [Node 1 tt tt; Node 2 tt tt; Node 3 tt tt] 0 3)). right. simpl. lia.
Defined.

(** X2.  [insert] always returns: the array it leaves holds the nodes it
    held before and the new node, each once, and it is in heap order if the
    array was. *)
Theorem insert_adds_one_node (Clause Count : Type)
    (t : tree Clause Count) (c : Clause) (k : Count) (e : Z) :
  exists t',
    insert c k e t = (Ok tt, t') /\
    Permutation (Node e c k :: t) t' /\
    (heap_ordered t -> heap_ordered t').
Proof.
  destruct (insert_perm _ _ t c k e) as (t' & H & P).
  exists t'. split; [assumption|]. split; [assumption|].
  intros Hh. destruct (insert_heap _ _ t c k e Hh) as (t'' & H' & _ & _ & Hh').
  rewrite H in H'. now injection H' as ->.
Qed.

Lemma insert_adds_one_node_witness :
  exists t',
    insert 7%nat tt 1 [Node 2 5%nat tt; Node 4 6%nat tt] = (Ok tt, t') /\
    Permutation [Node 1 7%nat tt; Node 2 5%nat tt; Node 4 6%nat tt] t' /\
    heap_ordered t'.
Proof.
  destruct (insert_adds_one_node nat unit [Node 2 5%nat tt; Node 4 6%nat tt] 7%nat tt 1)
    as (t' & H & P & Hh).
  exists t'. repeat split; try assumption. apply Hh.
  intros i Hi. simpl in Hi.
  assert (i = 1) by lia. subst i. vm_compute. discriminate.
Defined.

(** X3.  On an array of two or more nodes [getBest] returns the clause and
    the count of the root unchanged, with the flag [False], and leaves the
    other nodes, each once.  If the array was in heap order, the node taken
    has the least evaluation of all and the array left is in heap order. *)
Theorem getBest_takes_the_root (Clause Count : Type)
    (x y : node Clause Count) (t : tree Clause Count) :
  exists t',
    getBest (x :: y :: t) = (Ok (Some (clause x), Some (count x), false), t') /\
    Permutation (y :: t) t' /\
    (heap_ordered (x :: y :: t) ->
     heap_ordered t' /\
     forall n, In n (x :: y :: t) -> evaluation x <= evaluation n).
Proof.
  destruct (getBest_perm _ _ x y t) as (t' & H & P).
  exists t'. split; [assumption|]. split; [assumption|]. intros Hh. split.
  - destruct (getBest_heap _ _ x y t Hh) as (t'' & H' & _ & _ & Hh').
    rewrite H in H'. now injection H' as ->.
  - now apply root_least.
Qed.

Lemma getBest_takes_the_root_witness :
  exists t',
    getBest [Node 1 7%nat tt; Node 2 5%nat tt; Node 4 6%nat tt]
      = (Ok (Some 7%nat, Some tt, false), t') /\
    Permutation [Node 2 5%nat tt; Node 4 6%nat tt] t' /\
    heap_ordered t' /\
    forall n, In n [Node 1 7%nat tt; Node 2 5%nat tt; Node 4 6%nat tt] -> 1 <= evaluation n.
Proof.
  destruct (getBest_takes_the_root nat unit (Node 1 7%nat tt) (Node 2 5%nat tt)
              [Node 4 6%nat tt]) as (t' & H & P & Hh).
  exists t'. split; [exact H|]. split; [exact P|]. apply Hh.
  intros i Hi. simpl in Hi.
  assert (i = 1 \/ i = 2) as [->| ->] by lia; vm_compute; discriminate.
Defined.

(** X4.  After an [insert] into a non-empty array in heap order the root
    carries the smaller of the new evaluation and the evaluation of the old
    root; into the empty array, the new evaluation. *)
Theorem insert_root_is_minimum (Clause Count : Type)
    (x : node Clause Count) (t : tree Clause Count) (c : Clause) (k : Count) (e : Z) :
  (exists t0, insert c k e (@init Clause Count) = (Ok tt, t0) /\ root_evaluation t0 = e) /\
  (heap_ordered (x :: t) ->
   exists t', insert c k e (x :: t) = (Ok tt, t') /\
              root_evaluation t' = Z.min e (evaluation x)).
Proof.
  split; [eexists; split; reflexivity|]. intros Hh.
  destruct (insert_perm _ _ (x :: t) c k e) as (t' & H & P).
  destruct (insert_heap _ _ (x :: t) c k e Hh) as (t'' & H' & _ & _ & Hh').
  rewrite H in H'. injection H' as <-.
  exists t'. split; [assumption|].
  destruct t' as [|r t'].
  { apply Permutation_length in P. discriminate. }
  cbn [root_evaluation].
  pose proof (root_least _ _ r t' Hh') as Hr.
  assert (H1 : evaluation r <= e).
  { apply (Hr (Node e c k)). apply (Permutation_in _ P). now left. }
  assert (H2 : evaluation r <= evaluation x).
  { apply Hr. apply (Permutation_in _ P). right. now left. }
  assert (H3 : In r (Node e c k :: x :: t)).
  { apply (Permutation_in _ (Permutation_sym P)). now left. }
  destruct H3 as [<-|H3].
  - cbn [evaluation] in *. lia.
  - pose proof (root_least _ _ x t Hh r H3). lia.
Qed.

Lemma insert_root_is_minimum_witness :
  exists t', insert 7%nat tt 1 [Node 2 5%nat tt; Node 4 6%nat tt] = (Ok tt, t') /\
             root_evaluation t' = Z.min 1 2.
Proof.
  apply (proj2 (insert_root_is_minimum nat unit (Node 2 5%nat tt) [Node 4 6%nat tt] 7%nat tt 1)).
  intros i Hi. simpl in Hi.
  assert (i = 1) by lia. subst i. vm_compute. discriminate.
Defined.

(** X5.  On an array in heap order the two repair steps change nothing:
    [bubbleup] and [bubbledown] at any position return the array as it
    is. *)
Theorem repair_steps_keep_ordered_array (Clause Count : Type)
    (t : tree Clause Count) (k : Z) (fuel : nat) :
  heap_ordered t -> 0 <= k < Z.of_nat (List.length t) ->
  bubbleup (S fuel) k t = (Ok tt, t) /\ bubbledown (S fuel) k t = (Ok tt, t).
Proof.
  intros Hh Hk. split.
  - destruct (Z.eq_dec k 0) as [->|Hnz]; [reflexivity|].
    rewrite bubbleup_step by lia.
    destruct (parent_cases k) as [Hp _]; [lia|].
    destruct (tree_get_in _ _ t ((k - 1) / 2)) as [p Hp']; [lia|].
    destruct (tree_get_in _ _ t k Hk) as [n Hn].
    rewrite (bind_ok _ _ _ _ _ Hp'), (bind_ok _ _ _ _ _ Hn).
    apply tree_get_ev in Hp' as (-> & _ & _). apply tree_get_ev in Hn as (-> & _ & _).
    destruct (Z.leb_spec (ev t ((k - 1) / 2)) (ev t k)) as [_|Hgt]; [reflexivity|].
    specialize (Hh k). lia.
  - rewrite bubbledown_step. cbv zeta.
    destruct (Z.gtb_spec (2 * k + 1) (Z.of_nat (List.length t) - 1)) as [Hl|Hl]; [reflexivity|].
    destruct (tree_get_in _ _ t (2 * k + 1)) as [l Hgl]; [lia|].
    destruct (tree_get_in _ _ t k Hk) as [n Hgn].
    pose proof (tree_get_ev _ _ _ _ _ _ Hgl) as (El & _ & _).
    pose proof (tree_get_ev _ _ _ _ _ _ Hgn) as (En & _ & _).
    assert (Hleft : ev t k <= ev t (2 * k + 1)).
    { pose proof (Hh (2 * k + 1)) as A. replace ((2 * k + 1 - 1) / 2) with k in A; [lia|].
      Z.div_mod_to_equations. lia. }
    destruct (Z.gtb_spec (2 * k + 1 + 1) (Z.of_nat (List.length t) - 1)) as [Hr|Hr].
    + rewrite (bind_ok _ _ _ _ _ Hgl), (bind_ok _ _ _ _ _ Hgn). rewrite El, En.
      destruct (Z.ltb_spec (ev t (2 * k + 1)) (ev t k)); [lia | reflexivity].
    + destruct (tree_get_in _ _ t (2 * k + 1 + 1)) as [r Hgr]; [lia|].
      pose proof (tree_get_ev _ _ _ _ _ _ Hgr) as (Er & _ & _).
      assert (Hright : ev t k <= ev t (2 * k + 1 + 1)).
      { pose proof (Hh (2 * k + 1 + 1)) as A.
        replace ((2 * k + 1 + 1 - 1) / 2) with k in A; [lia|].
        Z.div_mod_to_equations. lia. }
      rewrite (bind_ok _ _ _ _ _ Hgl), (bind_ok _ _ _ _ _ Hgn). rewrite El, En.
      destruct (Z.ltb_spec (ev t (2 * k + 1)) (ev t k)); [lia|].
      unfold bind at 1.
      rewrite (bind_ok _ _ _ _ _ Hgr), (bind_ok _ _ _ _ _ Hgn). rewrite Er, En.
      unfold ret at 1.
      destruct (Z.ltb_spec (ev t (2 * k + 1 + 1)) (ev t k)); [lia | reflexivity].
Qed.

Lemma repair_steps_keep_ordered_array_witness :
  bubbleup 1 2 [Node 1 tt tt; Node 2 tt tt; Node 4 tt tt]
    = (Ok tt, [Node 1 tt tt; Node 2 tt tt; Node 4 tt tt]) /\
  bubbledown 1 2 [Node 1 tt tt; Node 2 tt tt; Node 4 tt tt]
    = (Ok tt, [Node 1 tt tt; Node 2 tt tt; Node 4 tt tt]).
Proof.
  apply (repair_steps_keep_ordered_array unit unit).
  - intros i Hi. simpl in Hi.
    assert (i = 1 \/ i = 2) as [->| ->] by lia; vm_compute; discriminate.
  - simpl. lia.
Defined.

End HeapExtras.

Section DrainContents.

Import MinHeap Delivery.
Variables (Clause Count : Type).

Lemma insert_all_perm (items : list (Clause * Count * Z)) (t : tree Clause Count) :
  heap_ordered t ->
  exists t',
    insert_all items t = (Ok tt, t') /\
    Permutation (map node_of items ++ t) t' /\ heap_ordered t'.
Proof.
  revert t. induction items as [|[[c k] e] items IH]; intros t Hh.
  - exists t. repeat split; [apply Permutation_refl | assumption].
  - destruct (insert_perm _ _ t c k e) as (t1 & H1 & P1).
    destruct (insert_heap _ _ t c k e Hh) as (t1' & H1' & _ & _ & Hh1).
    rewrite H1 in H1'. injection H1' as <-.
    destruct (IH t1 Hh1) as (t2 & H2 & P2 & Hh2).
    exists t2. cbn [insert_all]. rewrite (bind_ok _ _ _ _ _ H1).
    repeat split; try assumption.
    cbn [map node_of app]. rewrite <- P2.
    transitivity (map node_of items ++ Node e c k :: t).
    + apply Permutation_middle.
    + now apply Permutation_app_head.
Qed.

Lemma drain_delivers (n : nat) :
  forall (fuel : nat) (t : tree Clause Count),
    List.length t = S n -> (n < fuel)%nat -> heap_ordered t ->
    exists rs z,
      drain fuel t = (rs, Raise IndexError, []) /\
      Permutation (rs ++ [delivered z]) (map delivered t) /\
      Sorted Z.le (map fst (rs ++ [delivered z])).
Proof.
  induction n as [|n IH]; intros fuel t Hlen Hfuel Hh;
    (destruct fuel as [|fuel]; [lia|]).
  - destruct t as [|x [|y t]]; try discriminate. exists [], x.
    repeat split; [apply Permutation_refl | repeat constructor].
  - destruct t as [|x [|y t]]; try discriminate.
    destruct (getBest_perm _ _ x y t) as (t' & H & P).
    destruct (getBest_heap _ _ x y t Hh) as (t'' & H' & _ & _ & Hh').
    rewrite H in H'. injection H' as <-.
    destruct (IH fuel t') as (rs & z & Hrs & Prs & Srs);
      [rewrite <- (Permutation_length P); simpl in *; lia | lia | assumption |].
    exists (delivered x :: rs), z. cbn [drain]. rewrite H, Hrs.
    split; [reflexivity|]. split.
    + rewrite <- app_comm_cons.
      change (map delivered (x :: y :: t)) with (delivered x :: map delivered (y :: t)).
      constructor. rewrite Prs. apply Permutation_map. now symmetry.
    + rewrite <- app_comm_cons.
      change (map fst (delivered x :: rs ++ [delivered z]))
        with (evaluation x :: map fst (rs ++ [delivered z])).
      constructor; [assumption|].
      assert (Hall : forall e, In e (map fst (rs ++ [delivered z])) -> evaluation x <= e).
      { intros e He. apply in_map_iff in He as (d & <- & Hd).
        apply (Permutation_in _ Prs) in Hd. apply in_map_iff in Hd as (m & <- & Hm).
        cbn [delivered fst]. apply (root_least _ _ x (y :: t) Hh). right.
        apply (Permutation_in _ (Permutation_sym P)). assumption. }
      destruct (map fst (rs ++ [delivered z])) as [|e es]; constructor.
      apply Hall. now left.
Qed.

End DrainContents.

Section DrainExtras.

Import MinHeap Delivery.

(** X6.  A queue filled by [n >= 1] calls of [insert] and then drained
    delivers all the inserted nodes but one, each with its own clause and
    count, in non-decreasing order of evaluation; the node that is never
    delivered, because [getBest] fails on it, has the greatest
    evaluation. *)
Theorem drain_delivers_all_but_greatest (Clause Count : Type)
    (item : Clause * Count * Z) (items : list (Clause * Count * Z)) :
  exists t rs z,
    insert_all (item :: items) init = (Ok tt, t) /\
    drain (S (List.length t)) t = (rs, Raise IndexError, []) /\
    Permutation (rs ++ [delivered z]) (map delivered (map node_of (item :: items))) /\
    Sorted Z.le (map fst (rs ++ [delivered z])).
Proof.
  destruct (insert_all_perm Clause Count (item :: items) init (heap_ordered_nil _ _))
    as (t & Ht & Pt & Hh).
  rewrite app_nil_r in Pt.
  assert (L : List.length t = S (List.length items)).
  { rewrite <- (Permutation_length Pt). simpl. now rewrite length_map. }
  destruct (drain_delivers Clause Count (List.length items) (S (List.length t)) t)
    as (rs & z & Hrs & Prs & Srs).
  - assumption.
  - lia.
  - assumption.
  - exists t, rs, z. repeat split; try assumption.
    rewrite Prs. apply Permutation_map. now symmetry.
Qed.

End DrainExtras.

Section HeapTies.

Import MinHeap.

(** X7.  [bubbleup] moves a node only past a parent with a strictly
    greater evaluation.  A node inserted with an evaluation that is not
    below that of the node at its parent position, equal ones included,
    therefore stays at the end of the array, and nothing else moves; so
    does the first node of an empty heap. *)
Theorem insert_not_below_parent_appends (Clause Count : Type)
    (t : tree Clause Count) (c : Clause) (k : Count) (e : Z) :
  t = [] \/ ev t ((Z.of_nat (List.length t) - 1) / 2) <= e ->
  insert c k e t = (Ok tt, t ++ [Node e c k]).
Proof.
  intros H. unfold insert.
  unfold bind at 1, tree_append. unfold bind at 1, tree_len.
  rewrite length_app. cbn [List.length].
  replace (Z.of_nat (List.length t + 1)) with (Z.of_nat (List.length t) + 1) by lia.
  replace (Z.of_nat (List.length t) + 1 - 1) with (Z.of_nat (List.length t)) by lia.
  replace (Z.to_nat (Z.of_nat (List.length t) + 1)) with (S (List.length t)) by lia.
  destruct t as [|x t]; [reflexivity|].
  destruct H as [H|H]; [discriminate|].
  remember (x :: t) as u eqn:Hu.
  assert (Hn : 0 < Z.of_nat (List.length u)) by (subst u; cbn [List.length]; lia).
  rewrite bubbleup_step by assumption.
  destruct (parent_cases _ Hn) as [Hp _].
  set (q := (Z.of_nat (List.length u) - 1) / 2) in *.
  assert (Hq : tree_get q (u ++ [Node e c k]) =
               (match nth_error u (Z.to_nat q) with
                | Some y => Ok y
                | None => Raise IndexError
                end, u ++ [Node e c k])).
  { unfold tree_get. rewrite getitem_nth by (rewrite length_app; cbn [List.length]; lia).
    rewrite nth_error_app1 by lia. reflexivity. }
  assert (Hev : ev u q = match nth_error u (Z.to_nat q) with
                         | Some y => evaluation y
                         | None => 0
                         end).
  { unfold ev. rewrite getitem_nth by lia. now destruct (nth_error u (Z.to_nat q)). }
  destruct (nth_error u (Z.to_nat q)) as [y|] eqn:Ey;
    [|apply nth_error_None in Ey; lia].
  rewrite (bind_ok _ _ _ _ _ Hq).
  assert (Hl : tree_get (Z.of_nat (List.length u)) (u ++ [Node e c k]) =
               (Ok (Node e c k), u ++ [Node e c k])).
  { unfold tree_get. rewrite getitem_nth by (rewrite length_app; cbn [List.length]; lia).
    rewrite Nat2Z.id, nth_error_app2 by lia. rewrite Nat.sub_diag. reflexivity. }
  rewrite (bind_ok _ _ _ _ _ Hl). cbn [evaluation].
  destruct (Z.leb_spec (evaluation y) e); [reflexivity | lia].
Qed.

Lemma insert_not_below_parent_appends_witness :
  insert tt tt 5 [Node 3 tt tt; Node 5 tt tt; Node 4 tt tt] =
    (Ok tt, [Node 3 tt tt; Node 5 tt tt; Node 4 tt tt] ++ [Node 5 tt tt]).
Proof.
  apply (insert_not_below_parent_appends unit unit
           [Node 3 tt tt; Node 5 tt tt; Node 4 tt tt] tt tt 5).
  right. vm_compute. discriminate.
Defined.

End HeapTies.

(** ** Literals: comparison, membership, instantiation *)

Section LiteralExtras.

Import Terms Lexer Literals Syntax LiteralOps.
Local Open Scope string_scope.
Local Open Scope list_scope.

Lemma isEqual_iff (a b : Literal) : isEqual a b = true <-> a = b.
Proof.
  unfold isEqual, isNegative.
  rewrite andb_true_iff, Bool.eqb_true_iff, termEqual_true_iff.
  destruct a, b; simpl. split; [intros []; congruence | intros E; inversion E; auto].
Qed.

Lemma isOpposite_iff (a b : Literal) : isOpposite a b = true <-> a = complement b.
Proof.
  unfold isOpposite, isNegative, complement.
  rewrite andb_true_iff, negb_true_iff, termEqual_true_iff.
  destruct a as [na aa], b as [nb ab]; simpl. split.
  - intros [Hn ->]. f_equal. destruct na, nb; simpl in *; congruence.
  - intros E. inversion E; subst. split; [now destruct nb | reflexivity].
Qed.

Lemma complement_involutive (l : Literal) : complement (complement l) = l.
Proof. destruct l as [n a]. unfold complement. simpl. now rewrite negb_involutive. Qed.

(** X8.  [isEqual] is an equivalence on literals: reflexive, symmetric and
    transitive. *)
Theorem isEqual_equivalence :
  (forall a, isEqual a a = true) /\
  (forall a b, isEqual a b = isEqual b a) /\
  (forall a b c, isEqual a b = true -> isEqual b c = true -> isEqual a c = true).
Proof.
  repeat apply conj.
  - intros a. now apply isEqual_iff.
  - intros a b. destruct (isEqual a b) eqn:E1, (isEqual b a) eqn:E2; auto.
    + apply isEqual_iff in E1. subst. rewrite (proj2 (isEqual_iff b b) eq_refl) in E2. discriminate.
    + apply isEqual_iff in E2. subst. rewrite (proj2 (isEqual_iff a a) eq_refl) in E1. discriminate.
  - intros a b c H1 H2. apply isEqual_iff in H1, H2. apply isEqual_iff. congruence.
Qed.

Lemma isEqual_equivalence_witness :
  isEqual (mkLiteral true (Fun "p" [Var "X"])) (mkLiteral true (Fun "p" [Var "X"])) = true.
Proof.
  apply (proj2 (proj2 isEqual_equivalence) _ (mkLiteral true (Fun "p" [Var "X"]))); reflexivity.
Defined.

(** X9.  Two literals are never both [isEqual] and [isOpposite]; when their
    atoms are structurally equal exactly one of the two holds.  The opposite
    of an opposite is equal, and the opposite of an equal is opposite. *)
Theorem isEqual_isOpposite_exclusive :
  (forall a b, isEqual a b && isOpposite a b = false) /\
  (forall a b, isEqual a b || isOpposite a b = termEqual (atom a) (atom b)) /\
  (forall a b c, isOpposite a b = true -> isOpposite b c = true -> isEqual a c = true) /\
  (forall a b c, isOpposite a b = true -> isEqual b c = true -> isOpposite a c = true).
Proof.
  repeat apply conj.
  - intros a b. unfold isEqual, isOpposite.
    destruct (Bool.eqb (isNegative a) (isNegative b)), (termEqual (atom a) (atom b)); reflexivity.
  - intros a b. unfold isEqual, isOpposite.
    destruct (Bool.eqb (isNegative a) (isNegative b)), (termEqual (atom a) (atom b)); reflexivity.
  - intros a b c H1 H2. apply isOpposite_iff in H1, H2. apply isEqual_iff.
    subst. apply complement_involutive.
  - intros a b c H1 H2. apply isOpposite_iff in H1. apply isEqual_iff in H2.
    apply isOpposite_iff. congruence.
Qed.

Lemma isEqual_isOpposite_exclusive_witness :
  isEqual (mkLiteral true (Fun "p" [])) (mkLiteral true (Fun "p" [])) = true.
Proof.
  apply (proj1 (proj2 (proj2 isEqual_isOpposite_exclusive))
           _ (mkLiteral false (Fun "p" []))); reflexivity.
Defined.

(** X10.  [litInLitList] answers list membership: it is true exactly when the
    literal is an element of the list; it is false on the empty list, and on
    a concatenation it is the disjunction of the answers on the parts. *)
Theorem litInLitList_membership :
  (forall lit, litInLitList lit [] = false) /\
  (forall lit L, litInLitList lit L = true <-> In lit L) /\
  (forall lit L1 L2,
      litInLitList lit (L1 ++ L2) = litInLitList lit L1 || litInLitList lit L2).
Proof.
  repeat apply conj.
  - reflexivity.
  - intros lit L. induction L as [|l L IH]; simpl.
    + split; [discriminate | contradiction].
    + destruct (isEqual l lit) eqn:E.
      * apply isEqual_iff in E. split; auto.
      * rewrite IH. split; [auto|]. intros [->|H]; [|assumption].
        rewrite (proj2 (isEqual_iff lit lit) eq_refl) in E. discriminate.
  - intros lit L1 L2. induction L1 as [|l L1 IH]; simpl; [reflexivity|].
    destruct (isEqual l lit); [reflexivity | assumption].
Qed.

(** X11.  [oppositeInLitList] is true exactly when the list contains the
    literal with the same atom and the other sign; it is [litInLitList]
    asked about that literal. *)
Theorem oppositeInLitList_membership :
  (forall lit L, oppositeInLitList lit L = true <-> In (complement lit) L) /\
  (forall lit L, oppositeInLitList lit L = litInLitList (complement lit) L) /\
  (forall lit L, litInLitList lit L = oppositeInLitList (complement lit) L).
Proof.
  assert (H : forall lit L, oppositeInLitList lit L = litInLitList (complement lit) L).
  { intros lit L. induction L as [|l L IH]; simpl; [reflexivity|]. rewrite IH.
    destruct (isOpposite l lit) eqn:E1, (isEqual l (complement lit)) eqn:E2; auto.
    - apply isOpposite_iff in E1. subst.
      rewrite (proj2 (isEqual_iff _ _) eq_refl) in E2. discriminate.
    - apply isEqual_iff in E2. subst.
      rewrite (proj2 (isOpposite_iff _ _) eq_refl) in E1. discriminate. }
  repeat apply conj.
  - intros lit L. rewrite H. induction L as [|l L IH]; simpl.
    + split; [discriminate | contradiction].
    + destruct (isEqual l (complement lit)) eqn:E.
      * apply isEqual_iff in E. split; auto.
      * rewrite IH. split; [auto|]. intros [->|H1]; [|assumption].
        rewrite (proj2 (isEqual_iff _ _) eq_refl) in E. discriminate.
  - exact H.
  - intros lit L. now rewrite H, complement_involutive.
Qed.

(** X12.  Instantiation respects the comparisons, whatever the substitution
    does to terms: equal literals have the same instance, and the instances
    of opposite literals are opposite. *)
Theorem instantiate_respects_comparisons (subst : term -> term) :
  (forall l1 l2, isEqual l1 l2 = true -> instantiate l1 subst = instantiate l2 subst) /\
  (forall l1 l2 r1,
      isOpposite l1 l2 = true -> instantiate l1 subst = Ok r1 ->
      exists r2, instantiate l2 subst = Ok r2 /\ isOpposite r1 r2 = true).
Proof.
  split.
  - intros l1 l2 H. apply isEqual_iff in H. now subst.
  - intros l1 l2 r1 H H1. apply isOpposite_iff in H. subst l1.
    unfold instantiate, complement in *. cbn [atom negative] in *.
    unfold Literal_init in *. destruct (subst (atom l2)) as [x|f args]; [discriminate|].
    cbn [termFunc termArgs bindr] in *.
    destruct (String.eqb f "!="); injection H1 as <-; eexists; (split; [reflexivity|]);
      apply isOpposite_iff; unfold complement; cbn [atom negative];
      now rewrite ?negb_involutive.
Qed.

Lemma instantiate_respects_comparisons_witness :
  exists r2,
    instantiate (mkLiteral false (Fun "p" [Var "X"])) (fun t => t) = Ok r2 /\
    isOpposite (mkLiteral true (Fun "p" [Var "X"])) r2 = true.
Proof.
  apply (proj2 (instantiate_respects_comparisons (fun t => t))
           (mkLiteral true (Fun "p" [Var "X"]))); reflexivity.
Defined.

(** X13.  The constructor is idempotent: building a literal again from the
    atom and the sign of a literal it returned gives the same literal, so
    instantiating with the identity substitution returns the literal
    itself.  This holds for every literal the parser returns. *)
Theorem Literal_init_idempotent :
  (forall a s l, Literal_init a s = Ok l -> Literal_init (atom l) (negative l) = Ok l) /\
  (forall a s l, Literal_init a s = Ok l -> instantiate l (fun t => t) = Ok l) /\
  (forall lex l lex', parseLiteral lex = (Ok l, lex') -> instantiate l (fun t => t) = Ok l).
Proof.
  assert (H : forall a s l, Literal_init a s = Ok l -> Literal_init (atom l) (negative l) = Ok l).
  { intros a s l. unfold Literal_init. destruct a as [x|f args]; [discriminate|].
    cbn [termFunc termArgs bindr].
    destruct (String.eqb f "!=") eqn:Hf; intros E; injection E as <-; cbn [atom negative termFunc bindr].
    - reflexivity.
    - now rewrite Hf. }
  repeat apply conj.
  - exact H.
  - exact H.
  - intros lex l lex' Hp. unfold parseLiteral in Hp.
    repeat (apply bind_ok_inv in Hp as (? & ? & _ & Hp)).
    apply lift_ok_inv in Hp. eapply H; eauto.
Qed.

Lemma Literal_init_idempotent_witness :
  instantiate (mkLiteral true (Fun "=" [Var "X"; Fun "a" []])) (fun t => t)
    = Ok (mkLiteral true (Fun "=" [Var "X"; Fun "a" []])).
Proof.
  apply (proj1 (proj2 Literal_init_idempotent) (Fun "!=" [Var "X"; Fun "a" []]) false).
  reflexivity.
Defined.

End LiteralExtras.

(** ** Literals: printing and parsing *)

Section PrintingExtras.

Import Terms Lexer Literals Syntax LiteralOps.
Local Open Scope string_scope.
Local Open Scope list_scope.

(** X14.  An equational literal is printed from its first two arguments
    with [=] if it is positive and [!=] if it is negative, never with [~];
    so both ways of writing an inequation print alike.  Arguments after the
    second are not printed, and with fewer than two arguments printing
    raises [IndexError]. *)
Theorem repr_equational :
  (forall neg lhs rhs rest,
      repr (mkLiteral neg (Fun "=" (lhs :: rhs :: rest))) =
        Ok (term2String lhs ++ (if neg then "!=" else "=") ++ term2String rhs)%string) /\
  (forall s lhs rhs l1 l2,
      Literal_init (Fun "!=" [lhs; rhs]) s = Ok l1 ->
      Literal_init (Fun "=" [lhs; rhs]) (negb s) = Ok l2 ->
      repr l1 = repr l2) /\
  (forall neg args,
      (List.length args < 2)%nat -> repr (mkLiteral neg (Fun "=" args)) = Raise IndexError).
Proof.
  repeat apply conj.
  - intros neg lhs rhs rest. unfold repr, isEquational.
    cbn [atom termFunc termArgs bindr String.eqb Ascii.eqb Bool.eqb].
    rewrite !getitem_nth by (cbn [List.length]; lia). reflexivity.
  - intros s lhs rhs l1 l2 H1 H2. cbn in H1, H2. congruence.
  - intros neg [|a [|b rest]] H; simpl in H; try lia; reflexivity.
Qed.

Lemma repr_equational_witness :
  (List.length [Fun "a" []] < 2)%nat /\
  repr (mkLiteral true (Fun "=" [Fun "a" []])) = Raise IndexError.
Proof.
  split; [simpl; lia|].
  apply (proj2 (proj2 repr_equational)). simpl. lia.
Defined.

Lemma literalList2String_single (l : Literal) :
  literalList2String [l] = repr l.
Proof.
  unfold literalList2String, map_repr. destruct (repr l) as [s|e]; reflexivity.
Qed.

(** X15.  Printing is injective on well-formed literals: two lists of
    well-formed literals with the same printed text are the same list, and
    two well-formed literals with the same printed form are the same
    literal. *)
Theorem printing_is_injective :
  (forall L1 L2,
      forallb wf_literal L1 = true -> forallb wf_literal L2 = true ->
      literalList2String L1 = literalList2String L2 -> L1 = L2) /\
  (forall l1 l2,
      wf_literal l1 = true -> wf_literal l2 = true -> repr l1 = repr l2 -> l1 = l2).
Proof.
  assert (H : forall L1 L2,
             forallb wf_literal L1 = true -> forallb wf_literal L2 = true ->
             literalList2String L1 = literalList2String L2 -> L1 = L2).
  { intros L1 L2 W1 W2 E.
    destruct (literals_round_trip L1 W1) as (s1 & Hs1 & P1).
    destruct (literals_round_trip L2 W2) as (s2 & Hs2 & P2).
    rewrite E, Hs2 in Hs1. injection Hs1 as <-. congruence. }
  split; [exact H|].
  intros l1 l2 W1 W2 E.
  assert (E' : [l1] = [l2]).
  { apply H; [simpl; now rewrite W1 | simpl; now rewrite W2 |].
    now rewrite !literalList2String_single. }
  now injection E'.
Qed.

Lemma printing_is_injective_witness :
  forallb wf_literal [mkLiteral true (Fun "p" [Var "X"])] = true /\
  [mkLiteral true (Fun "p" [Var "X"])] = [mkLiteral true (Fun "p" [Var "X"])].
Proof.
  split; [reflexivity|].
  apply (proj1 printing_is_injective); reflexivity.
Defined.

Lemma concat_app (sep : string) (l1 l2 : list string) :
  l1 <> [] -> l2 <> [] ->
  String.concat sep (l1 ++ l2) = (String.concat sep l1 ++ sep ++ String.concat sep l2)%string.
Proof.
  intros H1 H2. induction l1 as [|a l1 IH]; [congruence|].
  destruct l1 as [|b l1].
  - destruct l2 as [|c l2]; [congruence|]. reflexivity.
  - change (String.concat sep ((a :: b :: l1) ++ l2))
      with (a ++ sep ++ String.concat sep ((b :: l1) ++ l2))%string.
    rewrite IH by discriminate.
    change (String.concat sep (a :: b :: l1))
      with (a ++ sep ++ String.concat sep (b :: l1))%string.
    now rewrite !append_assoc.
Qed.

Lemma map_repr_app (L1 L2 : list Literal) (ss1 ss2 : list string) :
  map_repr L1 = Ok ss1 -> map_repr L2 = Ok ss2 -> map_repr (L1 ++ L2) = Ok (ss1 ++ ss2).
Proof.
  revert ss1. induction L1 as [|l L1 IH]; intros ss1 H1 H2.
  - injection H1 as <-. assumption.
  - cbn [map_repr app] in *. destruct (repr l) as [s|e]; [|discriminate]. cbn [bindr] in *.
    destruct (map_repr L1) as [ss|e]; [|discriminate]. cbn [bindr] in *.
    injection H1 as <-. now rewrite (IH ss eq_refl H2).
Qed.

Lemma map_repr_length (L : list Literal) (ss : list string) :
  map_repr L = Ok ss -> List.length ss = List.length L.
Proof.
  revert ss. induction L as [|l L IH]; intros ss H.
  - now injection H as <-.
  - cbn [map_repr] in H. destruct (repr l) as [s|e]; [|discriminate]. cbn [bindr] in H.
    destruct (map_repr L) as [ss'|e]; [|discriminate]. cbn [bindr] in H.
    injection H as <-. simpl. now rewrite (IH ss' eq_refl).
Qed.

(** X16.  The text of a concatenation of two non-empty literal lists is the
    two texts joined by [|]. *)
Theorem literalList2String_app (L1 L2 : list Literal) (s1 s2 : string) :
  L1 <> [] -> L2 <> [] ->
  literalList2String L1 = Ok s1 -> literalList2String L2 = Ok s2 ->
  literalList2String (L1 ++ L2) = Ok (s1 ++ "|" ++ s2)%string.
Proof.
  intros N1 N2 H1 H2.
  destruct L1 as [|a L1]; [congruence|]. destruct L2 as [|b L2]; [congruence|].
  unfold literalList2String in *. cbn [app].
  destruct (map_repr (a :: L1)) as [ss1|e] eqn:E1; [|discriminate].
  destruct (map_repr (b :: L2)) as [ss2|e] eqn:E2; [|discriminate].
  cbn [bindr] in *. injection H1 as <-. injection H2 as <-.
  change (a :: L1 ++ b :: L2) with ((a :: L1) ++ b :: L2).
  rewrite (map_repr_app _ _ _ _ E1 E2). cbn [bindr]. f_equal.
  apply concat_app.
  - intros ->. apply map_repr_length in E1. discriminate.
  - intros ->. apply map_repr_length in E2. discriminate.
Qed.

Lemma literalList2String_app_witness :
  literalList2String
    ([mkLiteral false (Fun "p" [])] ++ [mkLiteral true (Fun "q" [])]) = Ok ("p" ++ "|" ++ "~q")%string.
Proof.
  apply literalList2String_app; (discriminate || reflexivity).
Defined.

End PrintingExtras.

Section ParsingExtras.

Import Terms Lexer Literals Syntax LiteralOps.
Local Open Scope string_scope.
Local Open Scope list_scope.

Lemma TestTok_ok_inv (ks : list TokenKind) (lex lex' : lexer) (b : bool) :
  TestTok ks lex = (Ok b, lex') ->
  lex' = lex /\ b = existsb (kind_eqb (next_kind lex)) ks.
Proof. rewrite TestTok_next. intros H. injection H as <- <-. auto. Qed.

Lemma parseLiteralItem_grows (res res' : list Literal) (lex lex' : lexer) :
  parseLiteralItem res lex = (Ok res', lex') ->
  (List.length res <= List.length res')%nat.
Proof.
  intros Hitem. unfold parseLiteralItem in Hitem.
  apply bind_ok_inv in Hitem as (look & lex4 & _ & Hitem).
  destruct (String.eqb look "$false").
  - apply bind_ok_inv in Hitem as (? & ? & _ & Hitem).
    unfold ret in Hitem. injection Hitem as <- _. lia.
  - apply bind_ok_inv in Hitem as (lit & ? & _ & Hitem).
    unfold ret in Hitem. injection Hitem as <- _.
    rewrite length_app. simpl. lia.
Qed.

Lemma parseLiteralList_loop_stops (fuel : nat) :
  forall (res res' : list Literal) (lex lex' : lexer),
    parseLiteralList_loop fuel res lex = (Ok res', lex') ->
    next_kind lex' <> Or /\ (List.length res <= List.length res')%nat.
Proof.
  induction fuel as [|fuel IH]; intros res res' lex lex' H; [discriminate|].
  cbn [parseLiteralList_loop] in H.
  apply bind_ok_inv in H as (more & lex1 & Hm & H).
  apply TestTok_ok_inv in Hm as [-> ->].
  destruct (existsb (kind_eqb (next_kind lex)) [Or]) eqn:E.
  - apply bind_ok_inv in H as (tok & lex2 & _ & H).
    apply bind_ok_inv in H as (res1 & lex3 & Hitem & H).
    apply IH in H as [H1 H2]. split; [assumption|].
    apply parseLiteralItem_grows in Hitem. lia.
  - unfold ret in H. injection H as <- <-. split; [|lia].
    intros Hk. rewrite Hk in E. discriminate.
Qed.

(** X17.  When [parseLiteralList] returns, the token it leaves next in the
    lexer is not [|]: the loop has read every alternative of the
    disjunction, and it stops at the first token that is none. *)
Theorem parseLiteralList_reads_all_alternatives (lex lex' : lexer) (L : list Literal) :
  parseLiteralList lex = (Ok L, lex') -> next_kind lex' <> Or.
Proof.
  intros H. unfold parseLiteralList in H.
  apply bind_ok_inv in H as (res & lex1 & _ & H).
  now apply parseLiteralList_loop_stops in H.
Qed.

Lemma parseLiteralList_reads_all_alternatives_witness :
  next_kind [Tok ClosePar ")"] <> Or.
Proof.
  apply (parseLiteralList_reads_all_alternatives (Lexer "p|~q)")
           [Tok ClosePar ")"] [mkLiteral false (Fun "p" []); mkLiteral true (Fun "q" [])]).
  reflexivity.
Defined.

(** X18.  The weight of a literal is that of its atom: the sign adds
    nothing, so a literal and its complement weigh the same, and the
    normalisation of [Literal.__init__], which renames the head [!=] to [=]
    and flips the sign, keeps the weight of the atom it was given;
    [instantiate] therefore yields the weight of the instantiated atom. *)
Theorem weight_ignores_sign (fweight vweight : Z) :
  (forall l, weight (complement l) fweight vweight = weight l fweight vweight) /\
  (forall a s l, Literal_init a s = Ok l ->
                 weight l fweight vweight = termWeight a fweight vweight) /\
  (forall l subst l', instantiate l subst = Ok l' ->
                      weight l' fweight vweight = termWeight (subst (atom l)) fweight vweight).
Proof.
  assert (Hinit : forall a s l, Literal_init a s = Ok l ->
                    weight l fweight vweight = termWeight a fweight vweight).
  { intros a s l H. unfold Literal_init in H.
    destruct a as [x|f args]; cbn in H; [discriminate|].
    destruct (String.eqb f "!="); injection H as <-; reflexivity. }
  split; [reflexivity|]. split; [exact Hinit|].
  intros l subst l' H. now apply Hinit in H.
Qed.

Lemma weight_ignores_sign_witness :
  weight (mkLiteral true (Fun "=" [Fun "a" []; Fun "b" []])) 2 1 =
  termWeight (Fun "!=" [Fun "a" []; Fun "b" []]) 2 1.
Proof.
  apply (proj1 (proj2 (weight_ignores_sign 2 1))
           (Fun "!=" [Fun "a" []; Fun "b" []]) false).
  reflexivity.
Defined.

End ParsingExtras.

(** ** The enumeration of resolvents and factors: order and bounds *)

Section InferenceExtras.

Import ResControl Samples.
Local Open Scope nat_scope.

(** X19.  [computeAllResolvents] returns the resolvents in the order of the
    loops: by literal position of the given clause, and for one position
    in the order of its partner list; a pair that occurs twice among the
    partners gives its resolvent twice.  So the result of a clause is that
    of its candidate pairs one after the other, and a clause without
    literals, or whose literals have no partner, gives the empty list
    without a call of the resolution rule. *)
Theorem computeAllResolvents_in_loop_order
    (Clause ClauseSet Lit : Type)
    (len : Clause -> nat) (getLiteral : Clause -> nat -> Lit)
    (getResolutionLiterals : ClauseSet -> Lit -> list (Clause * nat))
    (resolution : Clause -> nat -> Clause -> nat -> option Clause)
    (c : Clause) (cs : ClauseSet) :
  computeAllResolvents len getLiteral getResolutionLiterals resolution c cs =
    flat_map
      (fun lit =>
         flat_map (fun p => match resolution c lit (fst p) (snd p) with
                            | Some r => [r]
                            | None => []
                            end)
           (getResolutionLiterals cs (getLiteral c lit)))
      (xrange 0 (len c)) /\
  ((forall lit, lit < len c -> getResolutionLiterals cs (getLiteral c lit) = []) ->
   computeAllResolvents_run len getLiteral getResolutionLiterals resolution c cs = ([], [])).
Proof.
  split.
  - unfold computeAllResolvents. rewrite computeAllResolvents_run_eq. cbn [snd].
    unfold candidates. generalize (xrange 0 (len c)) as rows.
    induction rows as [|i rows IH]; [reflexivity|].
    cbn [flat_map]. rewrite flat_map_app, IH. f_equal.
    generalize (getResolutionLiterals cs (getLiteral c i)) as ps.
    induction ps as [|[cl2 lit2] ps IHp]; [reflexivity|].
    cbn [map flat_map fst snd resolvent_of]. now rewrite IHp.
  - intros H. rewrite computeAllResolvents_run_eq.
    assert (E : candidates len getLiteral getResolutionLiterals c cs = []).
    { unfold candidates, xrange. rewrite Nat.sub_0_r.
      assert (G : forall n a, a + n <= len c ->
                flat_map (fun lit => map (fun p : Clause * nat => (lit, fst p, snd p))
                            (getResolutionLiterals cs (getLiteral c lit))) (seq a n) = []).
      { induction n as [|n IH]; intros a Ha; [reflexivity|].
        cbn [seq flat_map]. rewrite H by lia. rewrite IH by lia. reflexivity. }
      apply G. lia. }
    rewrite E. reflexivity.
Qed.

Lemma computeAllResolvents_in_loop_order_witness :
  computeAllResolvents_run clause_len clause_lit
    (fun (_ : unit) (_ : nat) => @nil (clause * nat)) resolve_unit [4; 5] tt = ([], []).
Proof.
  apply (proj2 (computeAllResolvents_in_loop_order clause unit nat clause_len clause_lit
                  (fun _ _ => []) resolve_unit [4; 5] tt)).
  intros lit _. reflexivity.
Defined.

(** X20.  If every clause the factoring rule returns has a true truth
    value, the test [if fact:] is the test against [None]:
    [computeAllFactors] then returns every factor the rule produces, and
    the factors returned and the pairs without a factor together number
    [n(n-1)/2]. *)
Theorem computeAllFactors_of_truthy_rule
    (Clause : Type) (len : Clause -> nat) (truth : Clause -> bool)
    (factor : Clause -> nat -> nat -> option Clause) (c : Clause) :
  (forall i j f, i < j < len c -> factor c i j = Some f -> truth f = true) ->
  (forall f, In f (computeAllFactors len truth factor c) <->
             exists i j, i < j < len c /\ factor c i j = Some f) /\
  List.length (computeAllFactors len truth factor c) +
  List.length (filter (fun p => match factor c (fst p) (snd p) with
                                | Some _ => false
                                | None => true
                                end) (position_pairs (len c)))
  = len c * (len c - 1) / 2.
Proof.
  intros Ht. split.
  - intros f. rewrite in_computeAllFactors. split.
    + intros (i & j & Hij & Hf & _). eauto.
    + intros (i & j & Hij & Hf). exists i, j. eauto.
  - unfold computeAllFactors. rewrite computeAllFactors_run_eq. cbn [snd].
    rewrite <- position_pairs_length.
    assert (G : forall l : list (nat * nat),
              (forall p, In p l -> In p (position_pairs (len c))) ->
              List.length (flat_map (kept_factor truth factor c) l) +
              List.length (filter (fun p => match factor c (fst p) (snd p) with
                                            | Some _ => false
                                            | None => true
                                            end) l) = List.length l).
    { induction l as [|[i j] l IH]; intros Hl; [reflexivity|].
      cbn [flat_map filter fst snd]. unfold kept_factor at 1. cbn [fst snd].
      rewrite length_app.
      assert (Hij : i < j < len c) by (apply in_position_pairs, Hl; now left).
      specialize (IH (fun p Hp => Hl p (or_intror Hp))).
      destruct (factor c i j) as [f|] eqn:E.
      - rewrite (Ht i j f Hij E). cbn [List.length]. lia.
      - cbn [List.length]. lia. }
    apply G. auto.
Qed.

Lemma computeAllFactors_of_truthy_rule_witness :
  List.length (computeAllFactors clause_len clause_truth factor_drop [1; 2; 3]) +
  List.length (filter (fun p => match factor_drop [1; 2; 3] (fst p) (snd p) with
                                | Some _ => false
                                | None => true
                                end) (position_pairs (clause_len [1; 2; 3])))
  = clause_len [1; 2; 3] * (clause_len [1; 2; 3] - 1) / 2.
Proof.
  refine (proj2 (computeAllFactors_of_truthy_rule clause clause_len clause_truth
                   factor_drop [1; 2; 3] _)).
  intros i j f Hij Hf. unfold factor_drop in Hf. injection Hf as <-.
  destruct j as [|[|[|j]]]; [reflexivity | reflexivity | reflexivity |].
  simpl in Hij. lia.
Defined.

(** X21.  A clause with at most one literal has no pair of positions:
    [computeAllFactors] does not call the factoring rule and returns the
    empty list.  In general it returns at most [n(n-1)/2] factors, and
    [computeAllResolvents] at most as many resolvents as there are partners
    of the clause's literals. *)
Theorem inference_bounds
    (Clause ClauseSet Lit : Type)
    (len : Clause -> nat) (getLiteral : Clause -> nat -> Lit)
    (truth : Clause -> bool)
    (getResolutionLiterals : ClauseSet -> Lit -> list (Clause * nat))
    (resolution : Clause -> nat -> Clause -> nat -> option Clause)
    (factor : Clause -> nat -> nat -> option Clause)
    (c : Clause) (cs : ClauseSet) :
  (len c <= 1 -> computeAllFactors_run len truth factor c = ([], [])) /\
  List.length (computeAllFactors len truth factor c) <= len c * (len c - 1) / 2 /\
  List.length (computeAllResolvents len getLiteral getResolutionLiterals resolution c cs) <=
    list_sum (map (partner_count getLiteral getResolutionLiterals c cs) (xrange 0 (len c))).
Proof.
  split; [|split].
  - intros H. rewrite computeAllFactors_run_eq.
    assert (E : position_pairs (len c) = []).
    { destruct (len c) as [|[|n]]; [reflexivity | reflexivity | lia]. }
    rewrite E. reflexivity.
  - unfold computeAllFactors. rewrite computeAllFactors_run_eq. cbn [snd].
    rewrite <- position_pairs_length.
    generalize (position_pairs (len c)) as l.
    induction l as [|p l IH]; [reflexivity|].
    cbn [flat_map]. rewrite length_app. unfold kept_factor at 1.
    destruct (factor c (fst p) (snd p)) as [f|]; [destruct (truth f)|];
      cbn [List.length]; lia.
  - unfold computeAllResolvents. rewrite computeAllResolvents_run_eq. cbn [snd].
    rewrite <- (candidates_length _ _ _ len getLiteral getResolutionLiterals c cs).
    pose proof (resolvents_plus_misses _ resolution c
                  (candidates len getLiteral getResolutionLiterals c cs)). lia.
Qed.

Lemma inference_bounds_witness :
  computeAllFactors_run clause_len clause_truth factor_drop [9] = ([], []).
Proof.
  apply (proj1 (inference_bounds clause unit nat clause_len clause_lit clause_truth
                  unit_partners resolve_unit factor_drop [9] tt)).
  vm_compute. lia.
Defined.

End InferenceExtras.
